(** * Bit manipulation primitives of libc's [cpp/bit.h]

    A shallow embedding of [src/__support/CPP/bit.h]: the zero and one
    counters, [bit_width], [bit_floor], [bit_ceil], the rotations and the
    first-leading-bit helpers, over the unsigned integer types of the
    platform.  Values of a [w]-bit type are integers of [Z] in
    [0 .. 2^w - 1]; the integral promotions and conversions of the C++
    expressions are written out. *)

From Stdlib Require Import ZArith Bool List Lia Btauto.
From Equations Require Import Equations.
From coqutil Require Import Z.bitblast.
Import ListNotations.

Local Open Scope Z_scope.

(** ** The unsigned integer types *)

(** The template parameter [T] of every function of the header ranges over
    the unsigned integer types. *)
Inductive utype : Type :=
| UChar
| UShort
| UInt
| ULong
| ULongLong
| UInt128.

(** Modelled from the spec: [cpp::numeric_limits<T>::digits] of
    [src/__support/CPP/limits.h], the bit width [N] of the type (8, 16, 32
    and 64 for the char/short/int/long/long long family of an LP64
    platform, 128 for the extended type). *)
Definition digits (T : utype) : Z :=
  match T with
  | UChar => 8
  | UShort => 16
  | UInt => 32
  | ULong => 64
  | ULongLong => 64
  | UInt128 => 128
  end.

(** Modelled from the spec: [cpp::numeric_limits<T>::max()] of
    [src/__support/CPP/limits.h], the all-ones value of the type. *)
Definition max (T : utype) : Z := 2 ^ digits T - 1.

(** Width of [int] and [unsigned]. *)
Definition int_bits : Z := 32.

(** Conversion to [unsigned]: reduction modulo [2^32]. *)
Definition to_unsigned (x : Z) : Z := x mod 2 ^ int_bits.

(** Conversion to [int]: the two's complement reading of the low 32 bits. *)
Definition to_int (x : Z) : Z :=
  let y := x mod 2 ^ int_bits in
  if y <? 2 ^ (int_bits - 1) then y else y - 2 ^ int_bits.

(** Conversion to [T]: reduction modulo [2^N]. *)
Definition cast (T : utype) (x : Z) : Z := x mod 2 ^ digits T.

(** A type narrower than [int] is promoted to [int] in an expression. *)
Definition promoted (T : utype) : bool := digits T <? int_bits.

(** [a << s] on an operand of type [T]: computed in [int] for a promoted
    type, modulo [2^N] in [T] itself otherwise. *)
Definition shl (T : utype) (a s : Z) : Z :=
  if promoted T then to_int (Z.shiftl a s) else cast T (Z.shiftl a s).

(** [a >> s] on an operand of type [T]. *)
Definition shr (T : utype) (a s : Z) : Z := Z.shiftr a s.

(** [~a] for an operand of type [T], converted back to [T]. *)
Definition compl (T : utype) (a : Z) : Z := cast T (Z.lnot a).

(** The values of [T]. *)
Definition in_range (T : utype) (value : Z) : Prop := 0 <= value <= max T.

(** ** The toolchain *)

(** Modelled from the spec: the availability probe [LIBC_HAS_BUILTIN] of
    [src/__support/macros/config.h], for the two builtins whose
    specializations the header guards with it. *)
Record toolchain : Type := {
  has_builtin_ctzs : bool;
  has_builtin_clzs : bool
}.

(** Modelled from the spec: the native count of trailing zero bits
    ([__builtin_ctzs], [__builtin_ctz], [__builtin_ctzl], [__builtin_ctzll]),
    a linear scan upwards from the least significant bit.  [ctz_scan n i x]
    looks at the [n] bits of [x] from position [i] on. *)
Fixpoint ctz_scan (n : nat) (i x : Z) : Z :=
  match n with
  | O => i
  | S n' => if Z.testbit x i then i else ctz_scan n' (i + 1) x
  end.

Definition builtin_ctz (T : utype) (x : Z) : Z :=
  ctz_scan (Z.to_nat (digits T)) 0 x.

(** Modelled from the spec: the native count of leading zero bits
    ([__builtin_clzs], [__builtin_clz], [__builtin_clzl], [__builtin_clzll]),
    a linear scan downwards from the most significant bit.  [clz_scan n x]
    looks at the [n] low bits of [x]. *)
Fixpoint clz_scan (n : nat) (x : Z) : Z :=
  match n with
  | O => 0
  | S n' => if Z.testbit x (Z.of_nat n') then 0 else 1 + clz_scan n' x
  end.

Definition builtin_clz (T : utype) (x : Z) : Z :=
  clz_scan (Z.to_nat (digits T)) x.

(** ** Rotation events *)

(** What a rotation does besides computing its result: the shifts of the
    double-shift-and-or expression, with their amounts, and the delegation
    to the rotation of the opposite direction. *)
Inductive event : Type :=
| EvShl (amount : Z)
| EvShr (amount : Z)
| EvDelegate (amount : Z).

Definition is_delegate (e : event) : bool :=
  match e with
  | EvDelegate _ => true
  | _ => false
  end.

(** The amount of a shift lies strictly between [0] and [N]. *)
Definition shift_ok (T : utype) (e : event) : Prop :=
  match e with
  | EvShl s => 0 < s < digits T
  | EvShr s => 0 < s < digits T
  | EvDelegate _ => True
  end.

(** ** countr_zero *)

(** The [while (shift)] loop of the bisection; it returns the final
    [zero_bits].  [shift] is an [unsigned], so [shift != 0] is [0 < shift]. *)
Equations? countr_zero_loop (T : utype) (value zero_bits shift mask : Z) : Z
  by wf (Z.to_nat shift) lt :=
  countr_zero_loop T value zero_bits shift mask with Z_lt_dec 0 shift => {
    | right _ := zero_bits;
    | left _ :=
        let shift' := Z.shiftr shift 1 in
        if Z.land value mask =? 0
        then countr_zero_loop T (shr T value shift) (Z.lor zero_bits shift)
               shift' (shr T mask shift')
        else countr_zero_loop T value zero_bits shift' (shr T mask shift') }.
Proof.
  all: subst shift'; rewrite Z.shiftr_div_pow2 by lia; change (2 ^ 1) with 2;
    apply Z2Nat.inj_lt; try lia; try (apply Z.div_pos; lia);
    apply Z.div_lt; lia.
Qed.

(** The primary template. *)
Definition countr_zero_generic (T : utype) (value : Z) : Z :=
  if value =? 0 then digits T
  else if negb (Z.land value 1 =? 0) then 0
  else
    let shift := Z.shiftr (digits T) 1 in
    let mask := shr T (max T) shift in
    to_int (countr_zero_loop T value 0 shift mask).

(** [ADD_SPECIALIZATION(countr_zero, TYPE, BUILTIN)]. *)
Definition countr_zero_builtin (T : utype) (value : Z) : Z :=
  if value =? 0 then digits T else builtin_ctz T value.

(** ** countl_zero *)

(** The [for (...; shift; shift >>= 1)] loop of the bisection; it returns
    the final [zero_bits]. *)
Equations? countl_zero_loop (T : utype) (value zero_bits shift : Z) : Z
  by wf (Z.to_nat shift) lt :=
  countl_zero_loop T value zero_bits shift with Z_lt_dec 0 shift => {
    | right _ := zero_bits;
    | left _ :=
        let tmp := shr T value shift in
        if negb (tmp =? 0)
        then countl_zero_loop T tmp zero_bits (Z.shiftr shift 1)
        else countl_zero_loop T value (Z.lor zero_bits shift)
               (Z.shiftr shift 1) }.
Proof.
  all: rewrite Z.shiftr_div_pow2 by lia; change (2 ^ 1) with 2;
    apply Z2Nat.inj_lt; try lia; try (apply Z.div_pos; lia);
    apply Z.div_lt; lia.
Qed.

(** The primary template. *)
Definition countl_zero_generic (T : utype) (value : Z) : Z :=
  if value =? 0 then digits T
  else to_int (countl_zero_loop T value 0 (Z.shiftr (digits T) 1)).

(** [ADD_SPECIALIZATION(countl_zero, TYPE, BUILTIN)]. *)
Definition countl_zero_builtin (T : utype) (value : Z) : Z :=
  if value =? 0 then digits T else builtin_clz T value.

Section Bit.

(** The toolchain the header is compiled with. *)
Variable tc : toolchain.

(** The types [countr_zero] is specialized for. *)
Definition countr_zero_specialized (T : utype) : bool :=
  match T with
  | UShort => has_builtin_ctzs tc
  | UInt | ULong | ULongLong => true
  | UChar | UInt128 => false
  end.

(** The types [countl_zero] is specialized for. *)
Definition countl_zero_specialized (T : utype) : bool :=
  match T with
  | UShort => has_builtin_clzs tc
  | UInt | ULong | ULongLong => true
  | UChar | UInt128 => false
  end.

(** What a call of [countr_zero<T>] resolves to. *)
Definition countr_zero (T : utype) (value : Z) : Z :=
  if countr_zero_specialized T then countr_zero_builtin T value
  else countr_zero_generic T value.

(** What a call of [countl_zero<T>] resolves to. *)
Definition countl_zero (T : utype) (value : Z) : Z :=
  if countl_zero_specialized T then countl_zero_builtin T value
  else countl_zero_generic T value.

(** ** countl_one, countr_one *)

Definition countl_one (T : utype) (value : Z) : Z :=
  countl_zero T (compl T value).

Definition countr_one (T : utype) (value : Z) : Z :=
  countr_zero T (compl T value).

(** ** bit_width, bit_floor, bit_ceil *)

Definition bit_width (T : utype) (value : Z) : Z :=
  digits T - countl_zero T value.

Definition bit_floor (T : utype) (value : Z) : Z :=
  if value =? 0 then 0
  else cast T (shl T 1 (bit_width T value - 1)).

(** A left shift by an amount that is negative or not less than the width
    of the (promoted) left operand has no defined result. *)
Definition shl_checked (T : utype) (a s : Z) : option Z :=
  let width := if promoted T then int_bits else digits T in
  if (0 <=? s) && (s <? width) then Some (shl T a s) else None.

(** [None] stands for the undefined return value. *)
Definition bit_ceil (T : utype) (value : Z) : option Z :=
  if value <? 2 then Some 1
  else option_map (cast T) (shl_checked T 1 (bit_width T (cast T (value - 1)))).

(** ** rotl, rotr *)

(** The amount after [rotate = rotate % N]: [rotate] is converted to
    [unsigned] for the remainder by the [unsigned] [N], and the remainder is
    converted back to [int]. *)
Definition reduced (T : utype) (rotate : Z) : Z :=
  to_int (to_unsigned rotate mod digits T).

(** The two rotations call each other; [fuel] bounds the depth of the
    calls.  The result comes with the events of the evaluation. *)
Fixpoint rotl_fuel (fuel : nat) (T : utype) (value rotate : Z)
  : option (Z * list event) :=
  match fuel with
  | O => None
  | S fuel' =>
      let N := digits T in
      let rotate := reduced T rotate in
      if rotate =? 0 then Some (value, [])
      else if rotate <? 0 then
        match rotr_fuel fuel' T value (to_int (- rotate)) with
        | Some (r, log) => Some (r, EvDelegate (to_int (- rotate)) :: log)
        | None => None
        end
      else
        let left_amount := rotate in
        let right_amount := to_unsigned (N - to_unsigned rotate) in
        Some (cast T (Z.lor (shl T value left_amount)
                            (shr T value right_amount)),
              [EvShl left_amount; EvShr right_amount])
  end
with rotr_fuel (fuel : nat) (T : utype) (value rotate : Z)
  : option (Z * list event) :=
  match fuel with
  | O => None
  | S fuel' =>
      let N := digits T in
      let rotate := reduced T rotate in
      if rotate =? 0 then Some (value, [])
      else if rotate <? 0 then
        match rotl_fuel fuel' T value (to_int (- rotate)) with
        | Some (r, log) => Some (r, EvDelegate (to_int (- rotate)) :: log)
        | None => None
        end
      else
        let right_amount := rotate in
        let left_amount := to_unsigned (N - to_unsigned rotate) in
        Some (cast T (Z.lor (shr T value right_amount)
                            (shl T value left_amount)),
              [EvShr right_amount; EvShl left_amount])
  end.

(** ** first_leading_zero, first_leading_one *)

Definition first_leading_zero (T : utype) (value : Z) : Z :=
  if value =? max T then 0 else countl_one T value + 1.

Definition first_leading_one (T : utype) (value : Z) : Z :=
  first_leading_zero T (cast T (Z.lnot value)).

End Bit.

(** ** has_single_bit *)

(** [value - 1] on an operand of type [T]: computed in [int] for a promoted
    type, modulo [2^N] in [T] itself otherwise. *)
Definition minus_one (T : utype) (value : Z) : Z :=
  if promoted T then to_int (value - 1) else cast T (value - 1).

Definition has_single_bit (T : utype) (value : Z) : bool :=
  negb (value =? 0) && (Z.land value (minus_one T value) =? 0).

(** ** bit_cast *)

(** [dst[i] = b] on the bytes of an object; [None] outside the object. *)
Fixpoint store (dst : list Byte.byte) (i : nat) (b : Byte.byte)
  : option (list Byte.byte) :=
  match dst, i with
  | [], _ => None
  | _ :: rest, O => Some (b :: rest)
  | d :: rest, S i' => option_map (cons d) (store rest i' b)
  end.

(** The loop [for (i = ...; i < sizeof(To); ++i) dst[i] = src[i]] with
    [count] iterations left. *)
Fixpoint bit_cast_loop (count i : nat) (dst src : list Byte.byte)
  : option (list Byte.byte) :=
  match count with
  | O => Some dst
  | S count' =>
      match nth_error src i with
      | None => None
      | Some b =>
          match store dst i b with
          | None => None
          | Some dst' => bit_cast_loop count' (S i) dst' src
          end
      end
  end.

(** The byte-by-byte fallback of [bit_cast], on the object representations:
    [to] holds the bytes of the not yet initialized result, [from] the bytes
    of the argument. *)
Definition bit_cast (to from : list Byte.byte) : option (list Byte.byte) :=
  bit_cast_loop (length to) 0 to from.

(** ** Vocabulary of the properties *)

(** The binary logarithm of the width: every width is a power of two. *)
Definition log_digits (T : utype) : nat :=
  match T with
  | UChar => 3
  | UShort => 4
  | UInt => 5
  | ULong => 6
  | ULongLong => 6
  | UInt128 => 7
  end.

(** [d] is the index of the least significant set bit of [value]. *)
Definition lowest_set_bit (value d : Z) : Prop :=
  0 <= d /\ Z.testbit value d = true /\
  forall i, 0 <= i < d -> Z.testbit value i = false.

(** A toolchain with every probed builtin, and one with none. *)
Definition all_builtins : toolchain :=
  {| has_builtin_ctzs := true; has_builtin_clzs := true |}.

Definition no_builtins : toolchain :=
  {| has_builtin_ctzs := false; has_builtin_clzs := false |}.

(** * Properties *)

(** The examples of the header's comments, with and without the native
    counters. *)
Example header_examples :
  countr_zero all_builtins UInt 8 = 3 /\
  countr_zero_generic UInt 8 = 3 /\
  countl_one all_builtins UInt 0xFF0FFF00 = 8 /\
  countl_zero_generic UInt (compl UInt 0xFF0FFF00) = 8 /\
  countr_one all_builtins UInt 0x00FF00FF = 8 /\
  countr_zero_generic UInt (compl UInt 0x00FF00FF) = 8 /\
  bit_width no_builtins UChar 5 = 3 /\
  bit_floor all_builtins UInt 5 = 4 /\
  bit_ceil all_builtins UInt 5 = Some 8 /\
  rotl_fuel 1 UChar 1 1 = Some (2, [EvShl 1; EvShr 7]).
Proof. vm_compute. repeat split. Qed.

(** ** The types and the conversions *)

Lemma digits_log_digits (T : utype) : digits T = 2 ^ Z.of_nat (log_digits T).
Proof. destruct T; reflexivity. Qed.

Lemma digits_bounds (T : utype) : 8 <= digits T <= 128.
Proof. destruct T; simpl; lia. Qed.

Lemma digits_divide_int (T : utype) : (digits T | 2 ^ int_bits).
Proof.
  destruct T; simpl; unfold int_bits;
    [exists (2 ^ 29) | exists (2 ^ 28) | exists (2 ^ 27) | exists (2 ^ 26)
    | exists (2 ^ 26) | exists (2 ^ 25)]; reflexivity.
Qed.

Lemma to_int_small (x : Z) : 0 <= x < 2 ^ 31 -> to_int x = x.
Proof.
  intros H. unfold to_int, int_bits. cbv zeta.
  rewrite Z.mod_small by (change (2 ^ 32) with (2 * 2 ^ 31); lia).
  change (32 - 1) with 31.
  destruct (Z.ltb_spec x (2 ^ 31)); lia.
Qed.

Lemma pow2_pos (n : Z) : 0 <= n -> 0 < 2 ^ n.
Proof. intros. apply Z.pow_pos_nonneg; lia. Qed.

Lemma in_range_lt (T : utype) (value : Z) :
  in_range T value <-> 0 <= value < 2 ^ digits T.
Proof. unfold in_range, max. lia. Qed.

Lemma cast_small (T : utype) (x : Z) : 0 <= x < 2 ^ digits T -> cast T x = x.
Proof. intros. unfold cast. apply Z.mod_small. assumption. Qed.

Lemma pow2_half (m : nat) : 2 ^ Z.of_nat (S m) / 2 = 2 ^ Z.of_nat m.
Proof.
  rewrite Nat2Z.inj_succ, Z.pow_succ_r by lia.
  rewrite Z.mul_comm, Z.div_mul by lia. reflexivity.
Qed.

(** [zero_bits |= shift] adds [shift] when [zero_bits] is a multiple of
    [2 * shift]. *)
Lemma lor_shift_add (m : nat) (zb : Z) :
  0 <= zb -> zb mod 2 ^ Z.of_nat (S m) = 0 ->
  Z.lor zb (2 ^ Z.of_nat m) = zb + 2 ^ Z.of_nat m.
Proof.
  intros Hzb Hmod. apply Z.or_to_plus.
  apply Z.bits_inj'. intros i Hi.
  rewrite Z.land_spec, Z.bits_0, Z.pow2_bits_eqb by lia.
  destruct (Z.eqb_spec (Z.of_nat m) i) as [<- | Hne].
  - rewrite <- (Z.mod_pow2_bits_low zb (Z.of_nat (S m))) by lia.
    rewrite Hmod, Z.bits_0. reflexivity.
  - apply andb_false_r.
Qed.

Lemma mod_pow2_half (m : nat) (zb : Z) :
  zb mod 2 ^ Z.of_nat (S m) = 0 -> zb mod 2 ^ Z.of_nat m = 0.
Proof.
  intros H. rewrite Nat2Z.inj_succ, Z.pow_succ_r in H by lia.
  pose proof (pow2_pos (Z.of_nat m) ltac:(lia)).
  rewrite Z.mul_comm, Z.rem_mul_r in H by lia.
  pose proof (Z.mod_pos_bound zb (2 ^ Z.of_nat m) ltac:(lia)).
  pose proof (Z.mod_pos_bound (zb / 2 ^ Z.of_nat m) 2 ltac:(lia)).
  nia.
Qed.

(** ** The bisection of countr_zero *)

Lemma countr_zero_loop_exit (T : utype) (value zero_bits shift mask : Z) :
  shift <= 0 -> countr_zero_loop T value zero_bits shift mask = zero_bits.
Proof.
  intros H. simp countr_zero_loop.
  destruct (Z_lt_dec 0 shift); [lia | reflexivity].
Qed.

Lemma countr_zero_loop_step (T : utype) (value zero_bits shift mask : Z) :
  0 < shift ->
  countr_zero_loop T value zero_bits shift mask =
  if Z.land value mask =? 0
  then countr_zero_loop T (Z.shiftr value shift) (Z.lor zero_bits shift)
         (Z.shiftr shift 1) (Z.shiftr mask (Z.shiftr shift 1))
  else countr_zero_loop T value zero_bits
         (Z.shiftr shift 1) (Z.shiftr mask (Z.shiftr shift 1)).
Proof.
  intros H.
  rewrite (countr_zero_loop_equation_1 T value zero_bits shift mask).
  destruct (Z_lt_dec 0 shift); [reflexivity | lia].
Qed.

Lemma shiftr_1 (a : Z) : Z.shiftr a 1 = a / 2.
Proof. rewrite Z.shiftr_div_pow2 by lia. reflexivity. Qed.

(** Halving the mask of [2 * s] ones, [s] times. *)
Lemma ones_shiftr_half (s : Z) :
  0 <= s -> Z.shiftr (Z.ones (2 * s)) s = Z.ones s.
Proof.
  intros Hs. rewrite Z.shiftr_div_pow2, !Z.ones_equiv by lia.
  pose proof (pow2_pos s Hs).
  replace (2 * s) with (s + s) by lia. rewrite Z.pow_add_r by lia.
  symmetry. apply (Z.div_unique _ _ _ (2 ^ s - 1)); [lia | ].
  unfold Z.pred. ring.
Qed.

(** The loop entered with [shift = 2^m / 2], the matching [mask] and a
    [value] with a set bit below position [2^m] adds to [zero_bits] the
    index of the lowest set bit of [value]. *)
Lemma countr_zero_loop_spec (T : utype) (m : nat) :
  forall value zero_bits mask,
    (0 < 2 ^ Z.of_nat m / 2 -> mask = Z.ones (2 ^ Z.of_nat m / 2)) ->
    value mod 2 ^ (2 ^ Z.of_nat m) <> 0 ->
    0 <= zero_bits -> zero_bits mod 2 ^ Z.of_nat m = 0 ->
    exists d,
      countr_zero_loop T value zero_bits (2 ^ Z.of_nat m / 2) mask
      = zero_bits + d /\
      0 <= d < 2 ^ Z.of_nat m /\
      Z.testbit value d = true /\
      (forall i, 0 <= i < d -> Z.testbit value i = false).
Proof.
  induction m as [| m IH]; intros value zb mask Hmask Hval Hzb Hmod.
  - change (2 ^ Z.of_nat 0 / 2) with 0.
    rewrite countr_zero_loop_exit by lia.
    exists 0. repeat split; try lia.
    rewrite Z.bit0_odd. change (2 ^ Z.of_nat 0) with 1 in Hval.
    change (2 ^ 1) with 2 in Hval.
    rewrite Zmod_odd in Hval. destruct (Z.odd value); congruence.
  - pose proof (pow2_pos (Z.of_nat m) ltac:(lia)) as Hs.
    assert (Hpow : 2 ^ Z.of_nat (S m) = 2 * 2 ^ Z.of_nat m)
      by (rewrite Nat2Z.inj_succ, Z.pow_succ_r by lia; reflexivity).
    rewrite pow2_half in Hmask |- *. rewrite Hpow in Hval |- *.
    set (shift := 2 ^ Z.of_nat m) in *.
    rewrite countr_zero_loop_step by assumption.
    rewrite shiftr_1, (Hmask Hs), Z.land_ones by lia.
    assert (Hmask' : 0 < shift / 2 ->
                     Z.shiftr (Z.ones shift) (shift / 2) = Z.ones (shift / 2)).
    { intros Hlt. destruct m as [| m'].
      - exfalso. subst shift. change (2 ^ Z.of_nat 0 / 2) with 0 in Hlt. lia.
      - subst shift. rewrite pow2_half.
        replace (2 ^ Z.of_nat (S m')) with (2 * 2 ^ Z.of_nat m')
          by (rewrite Nat2Z.inj_succ, Z.pow_succ_r by lia; reflexivity).
        apply ones_shiftr_half. apply Z.lt_le_incl, pow2_pos. lia. }
    pose proof (pow2_pos shift ltac:(lia)) as Hps.
    replace (2 * shift) with (shift + shift) in Hval by lia.
    rewrite Z.pow_add_r, Z.rem_mul_r in Hval by lia.
    destruct (Z.eqb_spec (value mod 2 ^ shift) 0) as [Hz | Hnz].
    + rewrite Hz in Hval.
      destruct (IH (Z.shiftr value shift) (Z.lor zb shift) _ Hmask')
        as (d & Hres & Hd & Hbit & Hlow).
      * rewrite Z.shiftr_div_pow2 by lia. intros Hq. apply Hval.
        rewrite Hq. ring.
      * apply Z.lor_nonneg. lia.
      * subst shift. rewrite lor_shift_add by assumption.
        rewrite Z.add_mod, (mod_pow2_half _ _ Hmod), Z.mod_same by lia.
        reflexivity.
      * exists (shift + d). subst shift.
        rewrite lor_shift_add in Hres by assumption.
        rewrite Z.shiftr_spec in Hbit by lia.
        repeat split; try lia.
        -- rewrite lor_shift_add, Hres by assumption. ring.
        -- rewrite Z.add_comm. assumption.
        -- intros i Hi.
           destruct (Z.lt_ge_cases i (2 ^ Z.of_nat m)) as [Hlt | Hge].
           ++ rewrite <- (Z.mod_pow2_bits_low value (2 ^ Z.of_nat m)) by lia.
              rewrite Hz. apply Z.bits_0.
           ++ specialize (Hlow (i - 2 ^ Z.of_nat m) ltac:(lia)).
              rewrite Z.shiftr_spec in Hlow by lia.
              replace (i - 2 ^ Z.of_nat m + 2 ^ Z.of_nat m) with i in Hlow
                by lia.
              assumption.
    + destruct (IH value zb _ Hmask') as (d & Hres & Hd & Hbit & Hlow).
      * assumption.
      * assumption.
      * subst shift. apply mod_pow2_half. assumption.
      * exists d. repeat split; try lia; assumption.
Qed.

Lemma max_ones (T : utype) : max T = Z.ones (digits T).
Proof. unfold max. rewrite Z.ones_equiv. reflexivity. Qed.

Lemma land_1 (a : Z) : Z.land a 1 = a mod 2.
Proof. apply (Z.land_ones a 1). lia. Qed.

Lemma countr_zero_generic_nonzero (T : utype) (value : Z) :
  0 < value < 2 ^ digits T ->
  lowest_set_bit value (countr_zero_generic T value) /\
  countr_zero_generic T value < digits T.
Proof.
  intros Hv. pose proof (digits_bounds T) as HN.
  unfold countr_zero_generic.
  destruct (Z.eqb_spec value 0) as [? | _]; [lia | ].
  rewrite land_1.
  destruct (Z.eqb_spec (value mod 2) 0) as [Heven | Hodd]; simpl negb; cbv iota.
  - cbv zeta. unfold shr. rewrite max_ones.
    pose proof (digits_log_digits T) as HNm.
    destruct (log_digits T) as [| m'] eqn:Em; [destruct T; discriminate | ].
    assert (Hpow : 2 ^ Z.of_nat (S m') = 2 * 2 ^ Z.of_nat m')
      by (rewrite Nat2Z.inj_succ, Z.pow_succ_r by lia; reflexivity).
    pose proof (pow2_pos (Z.of_nat m') ltac:(lia)) as Hs.
    assert (Hshift : Z.shiftr (digits T) 1 = 2 ^ Z.of_nat m')
      by (rewrite shiftr_1, HNm; apply pow2_half).
    assert (Hmask : Z.shiftr (Z.ones (digits T)) (2 ^ Z.of_nat m')
                    = Z.ones (2 ^ Z.of_nat m'))
      by (rewrite HNm, Hpow; apply ones_shiftr_half; lia).
    rewrite Hshift, Hmask.
    destruct (countr_zero_loop_spec T (S m') value 0 (Z.ones (2 ^ Z.of_nat m')))
      as (d & Hres & Hd & Hbit & Hlow).
    + intros _. rewrite pow2_half. reflexivity.
    + rewrite <- HNm, Z.mod_small by lia. lia.
    + lia.
    + apply Z.mod_0_l. apply Z.pow_nonzero; lia.
    + rewrite pow2_half, Z.add_0_l in Hres. rewrite Hres.
      rewrite <- HNm in Hd. rewrite to_int_small by lia.
      split; [ | lia]. repeat split; [lia | assumption | assumption].
  - split; [ | lia]. repeat split; [lia | | intros; lia].
    rewrite Z.bit0_odd, <- Z.negb_even, Zeven_mod.
    destruct (Z.eqb_spec (value mod 2) 0); [contradiction | reflexivity].
Qed.

(** ** The native counters *)

Lemma ctz_scan_lowest (x d : Z) (n : nat) :
  forall i,
    0 <= i <= d -> d < i + Z.of_nat n ->
    Z.testbit x d = true ->
    (forall j, i <= j < d -> Z.testbit x j = false) ->
    ctz_scan n i x = d.
Proof.
  induction n as [| n IH]; intros i Hi Hd Hbit Hlow.
  - lia.
  - simpl. destruct (Z.testbit x i) eqn:Hxi.
    + destruct (Z.eq_dec i d) as [? | Hne]; [assumption | ].
      rewrite (Hlow i) in Hxi by lia. discriminate.
    + assert (i <> d) by (intros ->; congruence).
      apply IH; try lia; try assumption.
      intros j Hj. apply Hlow. lia.
Qed.

Lemma builtin_ctz_lowest (T : utype) (x d : Z) :
  lowest_set_bit x d -> d < digits T -> builtin_ctz T x = d.
Proof.
  intros (Hd & Hbit & Hlow) HdN. unfold builtin_ctz.
  apply ctz_scan_lowest; try assumption; lia.
Qed.

Lemma testbit_top (x n : Z) :
  0 <= n -> 0 <= x < 2 ^ (n + 1) -> Z.testbit x n = (2 ^ n <=? x).
Proof.
  intros Hn Hx. pose proof (pow2_pos n Hn) as Hp.
  rewrite Z.pow_add_r in Hx by lia. change (2 ^ 1) with 2 in Hx.
  rewrite Z.testbit_eqb by lia.
  destruct (Z.leb_spec (2 ^ n) x) as [Hle | Hlt].
  - replace (x / 2 ^ n) with 1; [reflexivity | ].
    apply (Z.div_unique _ _ _ (x - 2 ^ n)); lia.
  - rewrite Z.div_small by lia. reflexivity.
Qed.

Lemma clz_scan_log2 (n : nat) :
  forall x, 0 < x < 2 ^ Z.of_nat n ->
            clz_scan n x = Z.of_nat n - 1 - Z.log2 x.
Proof.
  induction n as [| n IH]; intros x Hx.
  - simpl in Hx. lia.
  - cbn [clz_scan].
    rewrite Nat2Z.inj_succ in Hx |- *. unfold Z.succ in Hx.
    rewrite testbit_top by lia.
    destruct (Z.leb_spec (2 ^ Z.of_nat n) x) as [Hle | Hlt].
    + rewrite (Z.log2_unique x (Z.of_nat n)); [lia | lia | ].
      unfold Z.succ. lia.
    + rewrite IH by lia. lia.
Qed.

(** ** The bisection of countl_zero *)

Lemma countl_zero_loop_exit (T : utype) (value zero_bits shift : Z) :
  shift <= 0 -> countl_zero_loop T value zero_bits shift = zero_bits.
Proof.
  intros H. rewrite (countl_zero_loop_equation_1 T value zero_bits shift).
  destruct (Z_lt_dec 0 shift); [lia | reflexivity].
Qed.

Lemma countl_zero_loop_step (T : utype) (value zero_bits shift : Z) :
  0 < shift ->
  countl_zero_loop T value zero_bits shift =
  if negb (Z.shiftr value shift =? 0)
  then countl_zero_loop T (Z.shiftr value shift) zero_bits (Z.shiftr shift 1)
  else countl_zero_loop T value (Z.lor zero_bits shift) (Z.shiftr shift 1).
Proof.
  intros H. rewrite (countl_zero_loop_equation_1 T value zero_bits shift).
  destruct (Z_lt_dec 0 shift); [reflexivity | lia].
Qed.

(** The loop entered with [shift = 2^m / 2] and a nonzero [value] below
    [2^(2^m)] adds to [zero_bits] the number of zero bits of [value] above
    its highest set bit, among the [2^m] low ones. *)
Lemma countl_zero_loop_spec (T : utype) (m : nat) :
  forall value zero_bits,
    0 < value < 2 ^ (2 ^ Z.of_nat m) ->
    0 <= zero_bits -> zero_bits mod 2 ^ Z.of_nat m = 0 ->
    countl_zero_loop T value zero_bits (2 ^ Z.of_nat m / 2)
    = zero_bits + (2 ^ Z.of_nat m - 1 - Z.log2 value).
Proof.
  induction m as [| m IH]; intros value zb Hv Hzb Hmod.
  - change (2 ^ Z.of_nat 0 / 2) with 0. change (2 ^ Z.of_nat 0) with 1 in *.
    rewrite countl_zero_loop_exit by lia.
    replace value with 1 by (change (2 ^ 1) with 2 in Hv; lia).
    change (Z.log2 1) with 0. ring.
  - pose proof (pow2_pos (Z.of_nat m) ltac:(lia)) as Hs.
    assert (Hpow : 2 ^ Z.of_nat (S m) = 2 * 2 ^ Z.of_nat m)
      by (rewrite Nat2Z.inj_succ, Z.pow_succ_r by lia; reflexivity).
    rewrite pow2_half, countl_zero_loop_step, shiftr_1 by assumption.
    pose proof (Z.log2_shiftr value (2 ^ Z.of_nat m) ltac:(lia)) as Hlog.
    pose proof (Z.shiftr_nonneg value (2 ^ Z.of_nat m)) as Hnn.
    destruct (Z.eqb_spec (Z.shiftr value (2 ^ Z.of_nat m)) 0) as [Hz | Hnz];
      simpl negb; cbv iota.
    + apply Z.shiftr_eq_0_iff in Hz. destruct Hz as [? | [_ Hz]]; [lia | ].
      apply Z.log2_lt_pow2 in Hz; [ | lia].
      rewrite lor_shift_add by assumption.
      rewrite IH; [lia | lia | lia | ].
      rewrite Z.add_mod, (mod_pow2_half _ _ Hmod), Z.mod_same by lia.
      reflexivity.
    + assert (Hpos : 0 < Z.shiftr value (2 ^ Z.of_nat m)) by lia.
      assert (Hge : 2 ^ Z.of_nat m <= Z.log2 value).
      { destruct (Z.lt_ge_cases (Z.log2 value) (2 ^ Z.of_nat m)) as [Hlt | ?];
          [ | assumption].
        exfalso. apply Hnz. apply Z.shiftr_eq_0; lia. }
      rewrite IH; [lia | | lia | apply mod_pow2_half; assumption].
      split; [assumption | ].
      apply Z.log2_lt_pow2; [assumption | ].
      assert (Z.log2 value < 2 ^ Z.of_nat (S m))
        by (apply (proj1 (Z.log2_lt_pow2 value _ ltac:(lia))), Hv).
      lia.
Qed.

Lemma countl_zero_generic_nonzero (T : utype) (value : Z) :
  0 < value < 2 ^ digits T ->
  countl_zero_generic T value = digits T - 1 - Z.log2 value.
Proof.
  intros Hv. pose proof (digits_bounds T) as HN.
  unfold countl_zero_generic.
  destruct (Z.eqb_spec value 0) as [? | _]; [lia | ].
  pose proof (digits_log_digits T) as HNm.
  rewrite shiftr_1, HNm, countl_zero_loop_spec.
  - rewrite <- HNm.
    assert (0 <= Z.log2 value < digits T).
    { split; [apply Z.log2_nonneg | apply Z.log2_lt_pow2; lia]. }
    rewrite to_int_small by lia. lia.
  - rewrite <- HNm. assumption.
  - lia.
  - apply Z.mod_0_l. apply Z.pow_nonzero; lia.
Qed.

Lemma builtin_clz_nonzero (T : utype) (value : Z) :
  0 < value < 2 ^ digits T ->
  builtin_clz T value = digits T - 1 - Z.log2 value.
Proof.
  intros Hv. pose proof (digits_bounds T) as HN.
  unfold builtin_clz. rewrite clz_scan_log2; rewrite Z2Nat.id; lia.
Qed.

(** ** What the calls resolve to *)

Lemma countr_zero_builtin_generic (T : utype) (value : Z) :
  in_range T value -> countr_zero_builtin T value = countr_zero_generic T value.
Proof.
  intros Hv%in_range_lt. unfold countr_zero_builtin.
  destruct (Z.eqb_spec value 0) as [-> | Hnz].
  - reflexivity.
  - destruct (countr_zero_generic_nonzero T value) as [Hlow Hlt]; [lia | ].
    apply builtin_ctz_lowest; assumption.
Qed.

Lemma countl_zero_builtin_generic (T : utype) (value : Z) :
  in_range T value -> countl_zero_builtin T value = countl_zero_generic T value.
Proof.
  intros Hv%in_range_lt. unfold countl_zero_builtin.
  destruct (Z.eqb_spec value 0) as [-> | Hnz].
  - reflexivity.
  - rewrite builtin_clz_nonzero, countl_zero_generic_nonzero by lia.
    reflexivity.
Qed.

Lemma countr_zero_resolved (tc : toolchain) (T : utype) (value : Z) :
  in_range T value -> countr_zero tc T value = countr_zero_generic T value.
Proof.
  intros Hv. unfold countr_zero.
  destruct (countr_zero_specialized tc T);
    [apply countr_zero_builtin_generic; assumption | reflexivity].
Qed.

Lemma countl_zero_resolved (tc : toolchain) (T : utype) (value : Z) :
  in_range T value -> countl_zero tc T value = countl_zero_generic T value.
Proof.
  intros Hv. unfold countl_zero.
  destruct (countl_zero_specialized tc T);
    [apply countl_zero_builtin_generic; assumption | reflexivity].
Qed.

Lemma countl_zero_nonzero (tc : toolchain) (T : utype) (value : Z) :
  in_range T value -> value <> 0 ->
  countl_zero tc T value = digits T - 1 - Z.log2 value.
Proof.
  intros Hv Hnz. rewrite countl_zero_resolved by assumption.
  apply countl_zero_generic_nonzero. apply in_range_lt in Hv. lia.
Qed.

Lemma countl_zero_zero (tc : toolchain) (T : utype) :
  countl_zero tc T 0 = digits T.
Proof.
  unfold countl_zero, countl_zero_builtin, countl_zero_generic.
  destruct (countl_zero_specialized tc T); reflexivity.
Qed.

(** ** The counters *)

(** C1: for every type with a specialization of [countr_zero] or
    [countl_zero] backed by a native counter (unsigned short, unsigned int,
    unsigned long, unsigned long long), and in fact for every unsigned
    type, the specialized function returns what the generic bisection
    returns, on each of the [2^N] values of the type, zero included. *)
Theorem specialization_agrees_with_bisection (T : utype) (value : Z) :
  in_range T value ->
  countr_zero_builtin T value = countr_zero_generic T value /\
  countl_zero_builtin T value = countl_zero_generic T value.
Proof.
  intros Hv. split.
  - apply countr_zero_builtin_generic. assumption.
  - apply countl_zero_builtin_generic. assumption.
Qed.

(** C2: [countr_zero(value)] is [N] exactly when [value] is [0]; for a
    nonzero [value], [value >> countr_zero(value)] is odd and no bit below
    that position is set.  This holds for the function a call resolves to
    under any toolchain, which returns what the primary template returns. *)
Theorem countr_zero_correct (tc : toolchain) (T : utype) (value : Z) :
  in_range T value ->
  countr_zero tc T value = countr_zero_generic T value /\
  (countr_zero tc T value = digits T <-> value = 0) /\
  (value <> 0 ->
   0 <= countr_zero tc T value < digits T /\
   Z.odd (Z.shiftr value (countr_zero tc T value)) = true /\
   forall i, 0 <= i < countr_zero tc T value -> Z.testbit value i = false).
Proof.
  intros Hv. rewrite countr_zero_resolved by assumption.
  apply in_range_lt in Hv.
  split; [reflexivity | ].
  destruct (Z.eq_dec value 0) as [-> | Hnz].
  - split; [ | congruence]. split; [reflexivity | ].
    intros _. unfold countr_zero_generic. reflexivity.
  - destruct (countr_zero_generic_nonzero T value) as [(Hd & Hbit & Hlow) Hlt];
      [lia | ].
    split; [split; [lia | congruence] | ].
    intros _. rewrite <- Z.testbit_odd. auto.
Qed.

(** C3: [countl_zero(value)] is [N] exactly when [value] is [0]; for a
    nonzero [value], the bit at position [N - 1 - countl_zero(value)] is set
    and every bit above it is zero.  This holds for the function a call
    resolves to under any toolchain, which returns what the primary template
    returns. *)
Theorem countl_zero_correct (tc : toolchain) (T : utype) (value : Z) :
  in_range T value ->
  countl_zero tc T value = countl_zero_generic T value /\
  (countl_zero tc T value = digits T <-> value = 0) /\
  (value <> 0 ->
   0 <= countl_zero tc T value < digits T /\
   Z.testbit value (digits T - 1 - countl_zero tc T value) = true /\
   forall i, digits T - 1 - countl_zero tc T value < i ->
             Z.testbit value i = false).
Proof.
  intros Hv. split; [apply countl_zero_resolved; assumption | ].
  destruct (Z.eq_dec value 0) as [-> | Hnz].
  - rewrite countl_zero_zero. split; [ | congruence]. split; reflexivity.
  - rewrite countl_zero_nonzero by assumption.
    apply in_range_lt in Hv.
    assert (Hlog : 0 <= Z.log2 value < digits T).
    { split; [apply Z.log2_nonneg | apply Z.log2_lt_pow2; lia]. }
    split; [split; [lia | congruence] | ].
    intros _.
    replace (digits T - 1 - (digits T - 1 - Z.log2 value)) with (Z.log2 value)
      by ring.
    split; [lia | ]. split.
    + apply Z.bit_log2. lia.
    + intros i Hi. apply Z.bits_above_log2; lia.
Qed.

(** ** bit_width, bit_floor and bit_ceil *)

Lemma bit_width_nonzero (tc : toolchain) (T : utype) (value : Z) :
  in_range T value -> value <> 0 -> bit_width tc T value = Z.log2 value + 1.
Proof.
  intros Hv Hnz. unfold bit_width. rewrite countl_zero_nonzero by assumption.
  ring.
Qed.

Lemma log2_in_range (T : utype) (value : Z) :
  in_range T value -> value <> 0 -> 0 <= Z.log2 value < digits T.
Proof.
  intros Hv%in_range_lt Hnz.
  split; [apply Z.log2_nonneg | apply Z.log2_lt_pow2; lia].
Qed.

(** [T(1) << s], converted to [T], for a shift amount below the width. *)
Lemma shl_one (T : utype) (s : Z) :
  0 <= s < digits T -> cast T (shl T 1 s) = 2 ^ s.
Proof.
  intros Hs. unfold shl. rewrite Z.shiftl_1_l.
  assert (Hlt : 2 ^ s < 2 ^ digits T) by (apply Z.pow_lt_mono_r; lia).
  pose proof (pow2_pos s ltac:(lia)) as Hpos.
  destruct (promoted T) eqn:Hp.
  - rewrite to_int_small; [apply cast_small; lia | ].
    split; [lia | ].
    apply Z.pow_lt_mono_r; [lia | lia | ].
    unfold promoted, int_bits in Hp. apply Z.ltb_lt in Hp. lia.
  - unfold cast. rewrite Z.mod_mod by lia. apply Z.mod_small. lia.
Qed.

(** C7: [bit_floor(0)] is [0]; for [value > 0], [bit_floor(value)] is a
    power of two with [bit_floor(value) <= value < 2 * bit_floor(value)]. *)
Theorem bit_floor_correct (tc : toolchain) (T : utype) (value : Z) :
  in_range T value ->
  bit_floor tc T 0 = 0 /\
  (0 < value ->
   (exists k, 0 <= k < digits T /\ bit_floor tc T value = 2 ^ k) /\
   bit_floor tc T value <= value < 2 * bit_floor tc T value).
Proof.
  intros Hv. split; [reflexivity | ]. intros Hpos.
  unfold bit_floor.
  destruct (Z.eqb_spec value 0) as [? | Hnz]; [lia | ].
  rewrite bit_width_nonzero by assumption.
  replace (Z.log2 value + 1 - 1) with (Z.log2 value) by ring.
  pose proof (log2_in_range T value Hv Hnz) as Hlog.
  rewrite shl_one by assumption.
  split; [exists (Z.log2 value); split; [assumption | reflexivity] | ].
  pose proof (Z.log2_spec value Hpos) as Hspec.
  rewrite Z.pow_succ_r in Hspec by lia. lia.
Qed.

(** C6: [bit_ceil(0)] and [bit_ceil(1)] are [1]; for [value > 1] such that
    some power of two no smaller than [value] is representable in [T],
    [bit_ceil(value)] is defined, is a power of two, and
    [bit_ceil(value) / 2 < value <= bit_ceil(value)]. *)
Theorem bit_ceil_correct (tc : toolchain) (T : utype) (value : Z) :
  1 < value ->
  (exists k, 0 <= k /\ value <= 2 ^ k <= max T) ->
  bit_ceil tc T 0 = Some 1 /\
  bit_ceil tc T 1 = Some 1 /\
  exists c,
    bit_ceil tc T value = Some c /\
    (exists k, 0 <= k < digits T /\ c = 2 ^ k) /\
    c / 2 < value <= c.
Proof.
  intros Hgt (k & Hk & Hle & Hmax).
  split; [reflexivity | ]. split; [reflexivity | ].
  pose proof (digits_bounds T) as HN.
  assert (HkN : k < digits T).
  { destruct (Z.lt_ge_cases k (digits T)) as [? | Hge]; [assumption | ].
    exfalso. unfold max in Hmax.
    assert (2 ^ digits T <= 2 ^ k) by (apply Z.pow_le_mono_r; lia). lia. }
  assert (Hv1 : in_range T (value - 1)) by (unfold in_range; lia).
  assert (Hlog : Z.log2 (value - 1) < k).
  { apply Z.log2_lt_pow2; lia. }
  pose proof (Z.log2_nonneg (value - 1)) as Hlog0.
  unfold bit_ceil.
  destruct (Z.ltb_spec value 2) as [? | _]; [lia | ].
  rewrite (cast_small T (value - 1)) by (apply in_range_lt; assumption).
  rewrite bit_width_nonzero by (assumption || lia).
  unfold shl_checked.
  replace ((0 <=? Z.log2 (value - 1) + 1)
           && (Z.log2 (value - 1) + 1
               <? (if promoted T then int_bits else digits T)))%bool
    with true.
  - cbn [option_map]. rewrite shl_one by lia.
    eexists. split; [reflexivity | ].
    split; [exists (Z.log2 (value - 1) + 1); split; [lia | reflexivity] | ].
    pose proof (Z.log2_spec (value - 1) ltac:(lia)) as Hspec.
    unfold Z.succ in Hspec.
    rewrite Z.pow_add_r in Hspec |- * by lia. change (2 ^ 1) with 2 in *.
    rewrite Z.div_mul by lia. lia.
  - symmetry. apply andb_true_iff. split.
    + apply Z.leb_le. lia.
    + apply Z.ltb_lt. unfold promoted.
      destruct (Z.ltb_spec (digits T) int_bits); lia.
Qed.

(** ** The rotations *)

(** The reduction [rotate % N] is done in [unsigned]: its result is the
    mathematical remainder, never negative. *)
Lemma reduced_mod (T : utype) (rotate : Z) :
  reduced T rotate = rotate mod digits T.
Proof.
  pose proof (digits_bounds T) as HN.
  unfold reduced, to_unsigned.
  rewrite Z.mod_mod_divide by apply digits_divide_int.
  pose proof (Z.mod_pos_bound rotate (digits T) ltac:(lia)).
  apply to_int_small. lia.
Qed.

Lemma reduced_range (T : utype) (rotate : Z) :
  0 <= reduced T rotate < digits T.
Proof.
  rewrite reduced_mod. apply Z.mod_pos_bound.
  pose proof (digits_bounds T). lia.
Qed.

Lemma to_unsigned_small (x : Z) : 0 <= x < 2 ^ 32 -> to_unsigned x = x.
Proof. intros. unfold to_unsigned, int_bits. apply Z.mod_small. assumption. Qed.

(** One call of [rotl] with any fuel left. *)
Lemma rotl_fuel_unfold (fuel : nat) (T : utype) (value rotate : Z) :
  rotl_fuel (S fuel) T value rotate =
  let s := reduced T rotate in
  if s =? 0 then Some (value, [])
  else Some (cast T (Z.lor (shl T value s) (Z.shiftr value (digits T - s))),
             [EvShl s; EvShr (digits T - s)]).
Proof.
  pose proof (reduced_range T rotate) as Hs.
  pose proof (digits_bounds T) as HN.
  cbn [rotl_fuel]. cbv zeta.
  destruct (Z.eqb_spec (reduced T rotate) 0); [reflexivity | ].
  destruct (Z.ltb_spec (reduced T rotate) 0); [lia | ].
  unfold shr. rewrite (to_unsigned_small (reduced T rotate)) by lia.
  rewrite to_unsigned_small by lia. reflexivity.
Qed.

(** One call of [rotr] with any fuel left. *)
Lemma rotr_fuel_unfold (fuel : nat) (T : utype) (value rotate : Z) :
  rotr_fuel (S fuel) T value rotate =
  let s := reduced T rotate in
  if s =? 0 then Some (value, [])
  else Some (cast T (Z.lor (Z.shiftr value s) (shl T value (digits T - s))),
             [EvShr s; EvShl (digits T - s)]).
Proof.
  pose proof (reduced_range T rotate) as Hs.
  pose proof (digits_bounds T) as HN.
  cbn [rotr_fuel]. cbv zeta.
  destruct (Z.eqb_spec (reduced T rotate) 0); [reflexivity | ].
  destruct (Z.ltb_spec (reduced T rotate) 0); [lia | ].
  unfold shr. rewrite (to_unsigned_small (reduced T rotate)) by lia.
  rewrite to_unsigned_small by lia. reflexivity.
Qed.

(** The promoted left shift of a rotation does not overflow [int]. *)
Lemma shl_promoted_small (T : utype) (value s : Z) :
  promoted T = true -> 0 <= value < 2 ^ digits T -> 0 <= s < digits T ->
  0 <= Z.shiftl value s < 2 ^ 31.
Proof.
  intros Hp Hv Hs. rewrite Z.shiftl_mul_pow2 by lia.
  pose proof (pow2_pos s ltac:(lia)) as Hpos.
  assert (Hle : 2 ^ s <= 2 ^ (digits T - 1)) by (apply Z.pow_le_mono_r; lia).
  destruct T; try discriminate Hp; simpl in *; nia.
Qed.

(** The converted result keeps the low [N] bits of the shifted operand. *)
Lemma cast_lor_shl_l (T : utype) (value s b : Z) :
  0 <= value < 2 ^ digits T -> 0 <= s < digits T ->
  cast T (Z.lor (shl T value s) b)
  = (Z.lor (Z.shiftl value s) b) mod 2 ^ digits T.
Proof.
  intros Hv Hs. pose proof (digits_bounds T) as HN. unfold shl.
  destruct (promoted T) eqn:Hp.
  - rewrite to_int_small by (apply (shl_promoted_small T); assumption).
    reflexivity.
  - unfold cast. Z.bitblast.
Qed.

Lemma cast_lor_shl_r (T : utype) (value s b : Z) :
  0 <= value < 2 ^ digits T -> 0 <= s < digits T ->
  cast T (Z.lor b (shl T value s))
  = (Z.lor b (Z.shiftl value s)) mod 2 ^ digits T.
Proof.
  intros Hv Hs. rewrite Z.lor_comm, cast_lor_shl_l by assumption.
  rewrite Z.lor_comm. reflexivity.
Qed.

(** Rotating the [N] low bits left by [s] and back. *)
Lemma rotate_round_trip (N value s : Z) :
  0 < s < N -> 0 <= value < 2 ^ N ->
  (Z.lor (Z.shiftr ((Z.lor (Z.shiftl value s) (Z.shiftr value (N - s)))
                      mod 2 ^ N) s)
         (Z.shiftl ((Z.lor (Z.shiftl value s) (Z.shiftr value (N - s)))
                      mod 2 ^ N) (N - s))) mod 2 ^ N
  = value.
Proof.
  intros Hs Hv.
  rewrite <- (Z.mod_small value (2 ^ N)) at 5 by assumption.
  rewrite <- (Z.mod_small value (2 ^ N)) at 1 2 3 4 by assumption.
  Z.bitblast.
  repeat match goal with
         | |- context [Z.testbit ?a ?i] =>
             first [ rewrite (Z.testbit_neg_r a i) by lia
                   | rewrite (Z.mod_pow2_bits_low _ _ i) by lia ]
         end.
  btauto.
Qed.

(** C4: for every value and every rotation amount, negative ones and ones
    of magnitude [N] or more included, [rotr(rotl(value, r), r)] is [value];
    and [rotl(value, 0)] and [rotl(value, N)] are [value].  Any positive
    fuel is enough for the calls to return. *)
Theorem rotation_round_trip (fuel : nat) (T : utype) (value r : Z) :
  in_range T value ->
  (exists x log1 log2,
     rotl_fuel (S fuel) T value r = Some (x, log1) /\
     in_range T x /\
     rotr_fuel (S fuel) T x r = Some (value, log2)) /\
  rotl_fuel (S fuel) T value 0 = Some (value, []) /\
  rotl_fuel (S fuel) T value (digits T) = Some (value, []).
Proof.
  intros Hv%in_range_lt. pose proof (digits_bounds T) as HN.
  pose proof (reduced_range T r) as Hs.
  split; [ | split].
  - rewrite rotl_fuel_unfold. cbv zeta.
    destruct (Z.eqb_spec (reduced T r) 0) as [Hz | Hnz].
    + exists value, [], []. rewrite rotr_fuel_unfold. cbv zeta.
      rewrite Hz. simpl.
      split; [reflexivity | ]. split; [apply in_range_lt; lia | reflexivity].
    + rewrite cast_lor_shl_l by lia.
      set (x := Z.lor _ _ mod 2 ^ digits T).
      assert (Hx : 0 <= x < 2 ^ digits T)
        by (apply Z.mod_pos_bound, pow2_pos; lia).
      eexists x, _, _. split; [reflexivity | ].
      split; [apply in_range_lt; assumption | ].
      rewrite rotr_fuel_unfold. cbv zeta.
      destruct (Z.eqb_spec (reduced T r) 0) as [? | _]; [contradiction | ].
      rewrite cast_lor_shl_r by lia.
      subst x. rewrite rotate_round_trip by lia. reflexivity.
  - rewrite rotl_fuel_unfold, reduced_mod, Z.mod_0_l by lia. reflexivity.
  - rewrite rotl_fuel_unfold, reduced_mod, Z.mod_same by lia. reflexivity.
Qed.

(** C8: whenever a rotation evaluates its double-shift-and-or expression,
    the two shift amounts are the reduced rotation amount and [N] minus it,
    and both lie strictly between [0] and [N]; and a rotation always
    returns. *)
Theorem rotation_shifts_in_range (fuel : nat) (T : utype) (value rotate : Z) :
  (exists r log,
     rotl_fuel (S fuel) T value rotate = Some (r, log) /\
     Forall (shift_ok T) log /\
     (log = [] \/
      log = [EvShl (reduced T rotate); EvShr (digits T - reduced T rotate)])) /\
  (exists r log,
     rotr_fuel (S fuel) T value rotate = Some (r, log) /\
     Forall (shift_ok T) log /\
     (log = [] \/
      log = [EvShr (reduced T rotate); EvShl (digits T - reduced T rotate)])).
Proof.
  pose proof (reduced_range T rotate) as Hs.
  rewrite rotl_fuel_unfold, rotr_fuel_unfold. cbv zeta.
  destruct (Z.eqb_spec (reduced T rotate) 0) as [Hz | Hnz].
  - split; exists value, []; repeat split; auto.
  - split; eexists _, _; (split; [reflexivity | ]);
      (split; [ | right; reflexivity]);
      repeat constructor; simpl; lia.
Qed.

(** C10: the rotation amount after the reduction [rotate % N] is not
    negative and is less than [N], so neither rotation ever takes the branch
    that delegates to the other one: each returns with a single unit of
    fuel and without a delegation event. *)
Theorem reduced_amount_not_negative (T : utype) (value rotate : Z) :
  0 <= reduced T rotate < digits T /\
  (exists r log,
     rotl_fuel 1 T value rotate = Some (r, log) /\
     existsb is_delegate log = false) /\
  (exists r log,
     rotr_fuel 1 T value rotate = Some (r, log) /\
     existsb is_delegate log = false).
Proof.
  split; [apply reduced_range | ].
  rewrite rotl_fuel_unfold, rotr_fuel_unfold. cbv zeta.
  destruct (reduced T rotate =? 0);
    split; eexists _, _; split; reflexivity.
Qed.

(** C5: at a negative amount that is not a multiple of [N] the reduced
    amount is positive: [rotl<unsigned char>(1, -1)] reduces [-1] to [7] and
    shifts by [7] and [1] itself, and [rotr<unsigned char>(1, -1)] likewise;
    neither delegates to the other rotation. *)
Example rotl_negative_amount_not_delegated :
  reduced UChar (-1) = 7 /\
  rotl_fuel 1 UChar 1 (-1) = Some (128, [EvShl 7; EvShr 1]) /\
  rotr_fuel 1 UChar 1 (-1) = Some (2, [EvShr 7; EvShl 1]).
Proof. repeat split. Qed.

(** ** first_leading_zero and first_leading_one *)

Lemma compl_spec (T : utype) (value i : Z) :
  0 <= i < digits T ->
  Z.testbit (compl T value) i = negb (Z.testbit value i).
Proof.
  intros Hi. unfold compl, cast.
  rewrite Z.mod_pow2_bits_low, Z.lnot_spec by lia. reflexivity.
Qed.

Lemma compl_range (T : utype) (value : Z) : in_range T (compl T value).
Proof.
  apply in_range_lt. unfold compl, cast.
  apply Z.mod_pos_bound, pow2_pos. pose proof (digits_bounds T). lia.
Qed.

Lemma compl_sub (T : utype) (value : Z) :
  in_range T value -> compl T value = max T - value.
Proof.
  intros Hv. unfold compl, cast.
  pose proof (pow2_pos (digits T)) as Hpos.
  replace (Z.lnot value) with (max T - value + (-1) * 2 ^ digits T)
    by (unfold Z.lnot, Z.pred, max; ring).
  rewrite Z.mod_add by (pose proof (digits_bounds T); lia).
  apply Z.mod_small. unfold in_range, max in *. lia.
Qed.

(** C9: [first_leading_zero(value)] is the position, counted from [1] at
    the most significant bit, of the first zero bit of [value], and [0]
    exactly when [value] is the maximum of the type, which has no zero bit;
    [first_leading_zero(max)] is [0], [first_leading_zero(0)] is [1] and
    [first_leading_one(0)] is [0]. *)
Theorem first_leading_zero_correct (tc : toolchain) (T : utype) (value : Z) :
  in_range T value ->
  first_leading_zero tc T (max T) = 0 /\
  first_leading_zero tc T 0 = 1 /\
  first_leading_one tc T 0 = 0 /\
  (first_leading_zero tc T value = 0 <-> value = max T) /\
  (value <> max T ->
   1 <= first_leading_zero tc T value <= digits T /\
   Z.testbit value (digits T - first_leading_zero tc T value) = false /\
   forall i, digits T - first_leading_zero tc T value < i < digits T ->
             Z.testbit value i = true).
Proof.
  intros Hv. pose proof (digits_bounds T) as HN.
  assert (Hmax : first_leading_zero tc T (max T) = 0)
    by (unfold first_leading_zero; rewrite Z.eqb_refl; reflexivity).
  assert (Hgen : value <> max T ->
    1 <= first_leading_zero tc T value <= digits T /\
    Z.testbit value (digits T - first_leading_zero tc T value) = false /\
    forall i, digits T - first_leading_zero tc T value < i < digits T ->
              Z.testbit value i = true).
  { intros Hne. unfold first_leading_zero, countl_one.
    destruct (Z.eqb_spec value (max T)) as [? | _]; [contradiction | ].
    assert (Hc : compl T value <> 0)
      by (rewrite compl_sub by assumption; lia).
    pose proof (compl_range T value) as Hcr.
    rewrite countl_zero_nonzero by assumption.
    pose proof (log2_in_range T _ Hcr Hc) as Hlog.
    replace (digits T - (digits T - 1 - Z.log2 (compl T value) + 1))
      with (Z.log2 (compl T value)) by ring.
    split; [lia | ]. split.
    - apply negb_true_iff. rewrite <- (compl_spec T) by lia.
      apply Z.bit_log2. unfold in_range in Hcr. lia.
    - intros i Hi. apply negb_false_iff. rewrite <- (compl_spec T) by lia.
      apply Z.bits_above_log2; [apply Hcr | lia]. }
  pose proof (pow2_pos (digits T) ltac:(lia)) as Hpos.
  assert (Hpow : 2 ^ 1 <= 2 ^ digits T) by (apply Z.pow_le_mono_r; lia).
  change (2 ^ 1) with 2 in Hpow.
  assert (H0 : compl T 0 = max T)
    by (rewrite compl_sub; [ring | unfold in_range, max; lia]).
  split; [assumption | ]. split.
  { unfold first_leading_zero, countl_one.
    destruct (Z.eqb_spec 0 (max T)) as [Hz | _];
      [unfold max in Hz; lia | ].
    rewrite H0, countl_zero_nonzero.
    - replace (Z.log2 (max T)) with (digits T - 1); [ring | ].
      symmetry. apply (Z.log2_pred_pow2 (digits T)). lia.
    - unfold in_range, max. lia.
    - unfold max. lia. }
  split.
  { unfold first_leading_one. change (cast T (Z.lnot 0)) with (compl T 0).
    rewrite H0. assumption. }
  split; [ | assumption].
  split; [ | intros ->; assumption].
  intros Hz. destruct (Z.eq_dec value (max T)) as [? | Hne]; [assumption | ].
  apply Hgen in Hne. lia.
Qed.

(** * The theorems at concrete inputs *)

Lemma specialization_agrees_with_bisection_witness :
  in_range UInt 40 /\
  countr_zero_builtin UInt 40 = countr_zero_generic UInt 40 /\
  countl_zero_builtin UInt 40 = countl_zero_generic UInt 40.
Proof.
  assert (H : in_range UInt 40) by (unfold in_range, max, digits; lia).
  split; [exact H | apply (specialization_agrees_with_bisection UInt 40 H)].
Defined.

Lemma countr_zero_correct_witness :
  in_range UShort 48 /\
  countr_zero all_builtins UShort 48 = countr_zero_generic UShort 48 /\
  (countr_zero all_builtins UShort 48 = digits UShort <-> 48 = 0) /\
  (48 <> 0 ->
   0 <= countr_zero all_builtins UShort 48 < digits UShort /\
   Z.odd (Z.shiftr 48 (countr_zero all_builtins UShort 48)) = true /\
   forall i, 0 <= i < countr_zero all_builtins UShort 48 ->
             Z.testbit 48 i = false).
Proof.
  assert (H : in_range UShort 48) by (unfold in_range, max, digits; lia).
  split; [exact H | apply (countr_zero_correct all_builtins UShort 48 H)].
Defined.

Lemma countl_zero_correct_witness :
  in_range UChar 5 /\
  countl_zero no_builtins UChar 5 = countl_zero_generic UChar 5 /\
  (countl_zero no_builtins UChar 5 = digits UChar <-> 5 = 0) /\
  (5 <> 0 ->
   0 <= countl_zero no_builtins UChar 5 < digits UChar /\
   Z.testbit 5 (digits UChar - 1 - countl_zero no_builtins UChar 5) = true /\
   forall i, digits UChar - 1 - countl_zero no_builtins UChar 5 < i ->
             Z.testbit 5 i = false).
Proof.
  assert (H : in_range UChar 5) by (unfold in_range, max, digits; lia).
  split; [exact H | apply (countl_zero_correct no_builtins UChar 5 H)].
Defined.

Lemma bit_floor_correct_witness :
  in_range UInt 5 /\
  bit_floor all_builtins UInt 0 = 0 /\
  (0 < 5 ->
   (exists k, 0 <= k < digits UInt /\ bit_floor all_builtins UInt 5 = 2 ^ k) /\
   bit_floor all_builtins UInt 5 <= 5 < 2 * bit_floor all_builtins UInt 5).
Proof.
  assert (H : in_range UInt 5) by (unfold in_range, max, digits; lia).
  split; [exact H | apply (bit_floor_correct all_builtins UInt 5 H)].
Defined.

Lemma bit_ceil_correct_witness :
  1 < 5 /\
  (exists k, 0 <= k /\ 5 <= 2 ^ k <= max UInt) /\
  bit_ceil all_builtins UInt 0 = Some 1 /\
  bit_ceil all_builtins UInt 1 = Some 1 /\
  exists c,
    bit_ceil all_builtins UInt 5 = Some c /\
    (exists k, 0 <= k < digits UInt /\ c = 2 ^ k) /\
    c / 2 < 5 <= c.
Proof.
  assert (H1 : 1 < 5) by lia.
  assert (H2 : exists k, 0 <= k /\ 5 <= 2 ^ k <= max UInt)
    by (exists 3; unfold max, digits; lia).
  split; [exact H1 | ].
  split; [exact H2 | apply (bit_ceil_correct all_builtins UInt 5 H1 H2)].
Defined.

Lemma rotation_round_trip_witness :
  in_range UChar 129 /\
  (exists x log1 log2,
     rotl_fuel 1 UChar 129 (-3) = Some (x, log1) /\
     in_range UChar x /\
     rotr_fuel 1 UChar x (-3) = Some (129, log2)) /\
  rotl_fuel 1 UChar 129 0 = Some (129, []) /\
  rotl_fuel 1 UChar 129 (digits UChar) = Some (129, []).
Proof.
  assert (H : in_range UChar 129) by (unfold in_range, max, digits; lia).
  split; [exact H | apply (rotation_round_trip 0 UChar 129 (-3) H)].
Defined.

Lemma first_leading_zero_correct_witness :
  in_range UChar 247 /\
  first_leading_zero no_builtins UChar (max UChar) = 0 /\
  first_leading_zero no_builtins UChar 0 = 1 /\
  first_leading_one no_builtins UChar 0 = 0 /\
  (first_leading_zero no_builtins UChar 247 = 0 <-> 247 = max UChar) /\
  (247 <> max UChar ->
   1 <= first_leading_zero no_builtins UChar 247 <= digits UChar /\
   Z.testbit 247 (digits UChar - first_leading_zero no_builtins UChar 247)
   = false /\
   forall i,
     digits UChar - first_leading_zero no_builtins UChar 247 < i
     < digits UChar ->
     Z.testbit 247 i = true).
Proof.
  assert (H : in_range UChar 247) by (unfold in_range, max, digits; lia).
  split; [exact H | apply (first_leading_zero_correct no_builtins UChar 247 H)].
Defined.

(** * Further properties *)

(** ** Shared facts *)

Lemma lowest_set_bit_unique (value d d' : Z) :
  lowest_set_bit value d -> lowest_set_bit value d' -> d = d'.
Proof.
  intros (Hd & Hbit & Hlow) (Hd' & Hbit' & Hlow').
  destruct (Z.lt_trichotomy d d') as [Hlt | [Heq | Hgt]]; [ | assumption | ].
  - rewrite (Hlow' d) in Hbit by lia. discriminate.
  - rewrite (Hlow d') in Hbit' by lia. discriminate.
Qed.

Lemma countr_zero_lowest (tc : toolchain) (T : utype) (value : Z) :
  in_range T value -> value <> 0 ->
  lowest_set_bit value (countr_zero tc T value) /\
  countr_zero tc T value < digits T.
Proof.
  intros Hv Hnz. rewrite countr_zero_resolved by assumption.
  apply countr_zero_generic_nonzero. apply in_range_lt in Hv. lia.
Qed.

Lemma countr_zero_zero (tc : toolchain) (T : utype) :
  countr_zero tc T 0 = digits T.
Proof.
  unfold countr_zero, countr_zero_builtin, countr_zero_generic.
  destruct (countr_zero_specialized tc T); reflexivity.
Qed.

(** Two values of [N] bits with the same bits are equal. *)
Lemma bits_eq_below (N x y : Z) :
  0 <= N -> 0 <= x < 2 ^ N -> 0 <= y < 2 ^ N ->
  (forall i, 0 <= i < N -> Z.testbit x i = Z.testbit y i) -> x = y.
Proof.
  intros HN Hx Hy Hbits.
  rewrite <- (Z.mod_small x (2 ^ N)), <- (Z.mod_small y (2 ^ N)) by assumption.
  apply Z.bits_inj'. intros i Hi.
  rewrite !Z.testbit_mod_pow2 by assumption.
  destruct (Z.ltb_spec i N); [ | reflexivity].
  simpl. apply Hbits. lia.
Qed.

Lemma pow2_lowest_set_bit (k : Z) : 0 <= k -> lowest_set_bit (2 ^ k) k.
Proof.
  intros Hk. split; [assumption | ]. split.
  - apply Z.pow2_bits_true. assumption.
  - intros i Hi. apply Z.pow2_bits_false. lia.
Qed.

(** The bits below the lowest set bit decide which powers of two divide. *)
Lemma lowest_set_bit_divide (value d k : Z) :
  lowest_set_bit value d -> 0 <= k -> ((2 ^ k | value) <-> k <= d).
Proof.
  intros (Hd & Hbit & Hlow) Hk.
  pose proof (pow2_pos k Hk) as Hpos.
  rewrite <- Z.mod_divide by lia. split.
  - intros Hmod. destruct (Z.le_gt_cases k d) as [? | Hgt]; [assumption | ].
    exfalso. rewrite <- (Z.mod_pow2_bits_low value k d), Hmod, Z.bits_0 in Hbit
      by lia. discriminate.
  - intros Hle. apply Z.bits_inj'. intros i Hi.
    rewrite Z.testbit_mod_pow2, Z.bits_0 by assumption.
    destruct (Z.ltb_spec i k); [ | reflexivity].
    simpl. apply Hlow. lia.
Qed.

Lemma minus_one_small (T : utype) (value : Z) :
  in_range T value -> value <> 0 -> minus_one T value = value - 1.
Proof.
  intros Hv%in_range_lt Hnz. unfold minus_one.
  destruct (promoted T) eqn:Hp.
  - apply to_int_small. split; [lia | ].
    unfold promoted, int_bits in Hp. apply Z.ltb_lt in Hp.
    assert (2 ^ digits T <= 2 ^ 31) by (apply Z.pow_le_mono_r; lia). lia.
  - apply cast_small. lia.
Qed.

(** [value & (value - 1)] is zero exactly on the powers of two. *)
Lemma land_pred_zero (value : Z) :
  0 < value ->
  (Z.land value (value - 1) = 0 <-> value = 2 ^ Z.log2 value).
Proof.
  intros Hpos. pose proof (Z.log2_nonneg value) as Hk.
  pose proof (Z.log2_spec value Hpos) as Hspec. unfold Z.succ in Hspec.
  split.
  - intros Hland.
    destruct (Z.eq_dec value (2 ^ Z.log2 value)) as [? | Hne]; [assumption | ].
    exfalso.
    assert (Hbit : Z.testbit (Z.land value (value - 1)) (Z.log2 value) = true).
    { rewrite Z.land_spec, !testbit_top by lia.
      apply andb_true_iff. split; apply Z.leb_le; lia. }
    rewrite Hland, Z.bits_0 in Hbit. discriminate.
  - intros Heq. rewrite Heq at 1 2.
    replace (2 ^ Z.log2 value - 1) with (Z.ones (Z.log2 value))
      by (rewrite Z.ones_equiv; unfold Z.pred; ring).
    rewrite Z.land_ones by assumption. apply Z.mod_same.
    apply Z.pow_nonzero; lia.
Qed.

Lemma has_single_bit_log2 (T : utype) (value : Z) :
  in_range T value ->
  (has_single_bit T value = true <-> 0 < value /\ value = 2 ^ Z.log2 value).
Proof.
  intros Hv. unfold has_single_bit.
  destruct (Z.eqb_spec value 0) as [-> | Hnz]; simpl.
  - split; [discriminate | intros [? _]; lia].
  - rewrite minus_one_small by assumption.
    assert (Hpos : 0 < value) by (unfold in_range in Hv; lia).
    rewrite Z.eqb_eq, land_pred_zero by assumption.
    split; [intros ?; split; assumption | intros [_ ?]; assumption].
Qed.

(** ** has_single_bit *)

(** X1: [has_single_bit(value)] is true exactly when [value] is a power of
    two [2^k] with [k < N]; in particular it is false on [0]. *)
Theorem has_single_bit_correct (T : utype) (value : Z) :
  in_range T value ->
  (has_single_bit T value = true <->
   exists k, 0 <= k < digits T /\ value = 2 ^ k).
Proof.
  intros Hv. rewrite has_single_bit_log2 by assumption. split.
  - intros [Hpos Heq]. exists (Z.log2 value). split; [ | assumption].
    apply log2_in_range; [assumption | lia].
  - intros (k & Hk & ->). pose proof (pow2_pos k ltac:(lia)).
    rewrite Z.log2_pow2 by lia. split; [assumption | reflexivity].
Qed.

(** ** The counters of ones *)

Lemma compl_zero_iff (T : utype) (value : Z) :
  in_range T value -> (compl T value = 0 <-> value = max T).
Proof. intros Hv. rewrite compl_sub by assumption. lia. Qed.

Lemma compl_involutive (T : utype) (value : Z) :
  in_range T value -> compl T (compl T value) = value.
Proof.
  intros Hv. rewrite (compl_sub T (compl T value)) by apply compl_range.
  rewrite compl_sub by assumption. ring.
Qed.

(** X2: [countl_one(value)] is [N] exactly on the all-ones value; otherwise
    it is the length of the run of one bits at the most significant end: the
    bit just below the run is zero and every bit of the run is one. *)
Theorem countl_one_correct (tc : toolchain) (T : utype) (value : Z) :
  in_range T value ->
  (countl_one tc T value = digits T <-> value = max T) /\
  (value <> max T ->
   0 <= countl_one tc T value < digits T /\
   Z.testbit value (digits T - 1 - countl_one tc T value) = false /\
   forall i, digits T - 1 - countl_one tc T value < i < digits T ->
             Z.testbit value i = true).
Proof.
  intros Hv. unfold countl_one.
  pose proof (compl_range T value) as Hcr.
  pose proof (compl_zero_iff T value Hv) as Hzero.
  destruct (Z.eq_dec value (max T)) as [Heq | Hne].
  - apply Hzero in Heq. rewrite Heq, countl_zero_zero.
    split; [ | intros Hc; apply Hzero in Heq; contradiction].
    split; [intros _; apply Hzero; assumption | reflexivity].
  - assert (Hc : compl T value <> 0) by (intros Hc; apply Hzero in Hc; auto).
    rewrite countl_zero_nonzero by assumption.
    pose proof (log2_in_range T _ Hcr Hc) as Hlog.
    split; [split; [lia | intros; contradiction] | ]. intros _.
    replace (digits T - 1 - (digits T - 1 - Z.log2 (compl T value)))
      with (Z.log2 (compl T value)) by ring.
    split; [lia | ]. split.
    + apply negb_true_iff. rewrite <- (compl_spec T) by lia.
      apply Z.bit_log2. unfold in_range in Hcr. lia.
    + intros i Hi. apply negb_false_iff. rewrite <- (compl_spec T) by lia.
      apply Z.bits_above_log2; [apply Hcr | lia].
Qed.

(** X3: [countr_one(value)] is [N] exactly on the all-ones value; otherwise
    it is the index of the lowest zero bit of [value]: that bit is zero and
    every bit below it is one. *)
Theorem countr_one_correct (tc : toolchain) (T : utype) (value : Z) :
  in_range T value ->
  (countr_one tc T value = digits T <-> value = max T) /\
  (value <> max T ->
   0 <= countr_one tc T value < digits T /\
   Z.testbit value (countr_one tc T value) = false /\
   forall i, 0 <= i < countr_one tc T value -> Z.testbit value i = true).
Proof.
  intros Hv. unfold countr_one.
  pose proof (compl_range T value) as Hcr.
  pose proof (compl_zero_iff T value Hv) as Hzero.
  destruct (Z.eq_dec value (max T)) as [Heq | Hne].
  - apply Hzero in Heq. rewrite Heq, countr_zero_zero.
    split; [ | intros Hc; apply Hzero in Heq; contradiction].
    split; [intros _; apply Hzero; assumption | reflexivity].
  - assert (Hc : compl T value <> 0) by (intros Hc; apply Hzero in Hc; auto).
    destruct (countr_zero_lowest tc T _ Hcr Hc) as [(Hd & Hbit & Hlow) Hlt].
    split; [split; [lia | intros; contradiction] | ]. intros _.
    split; [lia | ]. split.
    + apply negb_true_iff. rewrite <- (compl_spec T) by lia. assumption.
    + intros i Hi. apply negb_false_iff. rewrite <- (compl_spec T) by lia.
      apply Hlow. lia.
Qed.

(** ** countr_zero and divisibility *)

(** X4: for a nonzero [value], [2^k] divides [value] exactly when
    [k <= countr_zero(value)]: the count is the exponent of the largest
    power of two dividing [value]. *)
Theorem countr_zero_divides (tc : toolchain) (T : utype) (value k : Z) :
  in_range T value -> value <> 0 -> 0 <= k ->
  ((2 ^ k | value) <-> k <= countr_zero tc T value).
Proof.
  intros Hv Hnz Hk.
  destruct (countr_zero_lowest tc T value Hv Hnz) as [Hlow _].
  apply lowest_set_bit_divide; assumption.
Qed.

(** ** bit_width *)

(** X5: [bit_width(0)] is [0]; for a nonzero [value], [bit_width(value)] is
    the number [w] of bits needed to write it:
    [2^(w-1) <= value < 2^w], with [1 <= w <= N]. *)
Theorem bit_width_correct (tc : toolchain) (T : utype) (value : Z) :
  in_range T value ->
  bit_width tc T 0 = 0 /\
  (value <> 0 ->
   1 <= bit_width tc T value <= digits T /\
   2 ^ (bit_width tc T value - 1) <= value < 2 ^ bit_width tc T value).
Proof.
  intros Hv. split.
  - unfold bit_width. rewrite countl_zero_zero. ring.
  - intros Hnz. rewrite bit_width_nonzero by assumption.
    pose proof (log2_in_range T value Hv Hnz) as Hlog.
    split; [lia | ].
    replace (Z.log2 value + 1 - 1) with (Z.log2 value) by ring.
    apply Z.log2_spec. unfold in_range in Hv. lia.
Qed.

(** X6: [bit_width] is monotone and [countl_zero] antitone: a larger value
    needs at least as many bits and has at most as many leading zeros. *)
Theorem bit_width_monotone (tc : toolchain) (T : utype) (a b : Z) :
  in_range T a -> in_range T b -> a <= b ->
  bit_width tc T a <= bit_width tc T b /\
  countl_zero tc T b <= countl_zero tc T a.
Proof.
  intros Ha Hb Hle.
  assert (Hgoal : countl_zero tc T b <= countl_zero tc T a).
  { destruct (Z.eq_dec a 0) as [-> | Hnza].
    - rewrite countl_zero_zero.
      destruct (Z.eq_dec b 0) as [-> | Hnzb].
      + rewrite countl_zero_zero. lia.
      + rewrite countl_zero_nonzero by assumption.
        pose proof (log2_in_range T b Hb Hnzb). lia.
    - assert (Hnzb : b <> 0) by (unfold in_range in Ha; lia).
      rewrite !countl_zero_nonzero by assumption.
      pose proof (Z.log2_le_mono a b Hle). lia. }
  unfold bit_width. lia.
Qed.

(** X7: a nonzero [value] has a single bit exactly when its leading and
    trailing zero counts add up to [N - 1]. *)
Theorem has_single_bit_counts (tc : toolchain) (T : utype) (value : Z) :
  in_range T value -> value <> 0 ->
  (has_single_bit T value = true <->
   countl_zero tc T value + countr_zero tc T value = digits T - 1).
Proof.
  intros Hv Hnz. rewrite has_single_bit_log2 by assumption.
  rewrite countl_zero_nonzero by assumption.
  destruct (countr_zero_lowest tc T value Hv Hnz) as [Hlow _].
  assert (Hpos : 0 < value) by (unfold in_range in Hv; lia).
  pose proof (Z.log2_nonneg value) as Hlog.
  split.
  - intros [_ Heq].
    pose proof (pow2_lowest_set_bit (Z.log2 value) Hlog) as Hpow.
    rewrite <- Heq in Hpow.
    rewrite (lowest_set_bit_unique _ _ _ Hlow Hpow). ring.
  - intros Hsum.
    assert (Hd : countr_zero tc T value = Z.log2 value) by lia.
    split; [assumption | ].
    assert (Hdiv : (2 ^ Z.log2 value | value)).
    { apply (lowest_set_bit_divide value _ (Z.log2 value) Hlow); lia. }
    destruct Hdiv as [q Hq].
    pose proof (Z.log2_spec value Hpos) as Hspec.
    rewrite Z.pow_succ_r in Hspec by assumption.
    pose proof (pow2_pos (Z.log2 value) Hlog).
    assert (q = 1) by nia. subst q. lia.
Qed.

(** ** first_leading_one *)

(** X8: [first_leading_one(value)] is [0] exactly on [0]; for a nonzero
    [value] it is [countl_zero(value) + 1], the position counted from [1] at
    the most significant bit of the highest set bit: that bit is set and
    every bit above it is zero. *)
Theorem first_leading_one_correct (tc : toolchain) (T : utype) (value : Z) :
  in_range T value ->
  (first_leading_one tc T value = 0 <-> value = 0) /\
  (value <> 0 ->
   first_leading_one tc T value = countl_zero tc T value + 1 /\
   1 <= first_leading_one tc T value <= digits T /\
   Z.testbit value (digits T - first_leading_one tc T value) = true /\
   forall i, digits T - first_leading_one tc T value < i ->
             Z.testbit value i = false).
Proof.
  intros Hv. unfold first_leading_one.
  change (cast T (Z.lnot value)) with (compl T value).
  unfold first_leading_zero, countl_one.
  rewrite compl_involutive by assumption.
  assert (Hmax : compl T value = max T <-> value = 0)
    by (rewrite compl_sub by assumption; lia).
  destruct (Z.eqb_spec (compl T value) (max T)) as [Heq | Hne].
  - apply Hmax in Heq. split; [split; auto | contradiction].
  - assert (Hnz : value <> 0) by (intros Hz; apply Hmax in Hz; auto).
    rewrite countl_zero_nonzero by assumption.
    pose proof (log2_in_range T value Hv Hnz) as Hlog.
    split; [split; [lia | contradiction] | ]. intros _.
    split; [reflexivity | ]. split; [lia | ].
    replace (digits T - (digits T - 1 - Z.log2 value + 1))
      with (Z.log2 value) by ring.
    split.
    + apply Z.bit_log2. unfold in_range in Hv. lia.
    + intros i Hi. apply Z.bits_above_log2; [apply Hv | lia].
Qed.

(** ** bit_floor and bit_ceil *)

Lemma bit_floor_nonzero (tc : toolchain) (T : utype) (value : Z) :
  in_range T value -> value <> 0 -> bit_floor tc T value = 2 ^ Z.log2 value.
Proof.
  intros Hv Hnz. unfold bit_floor.
  destruct (Z.eqb_spec value 0) as [? | _]; [contradiction | ].
  rewrite bit_width_nonzero by assumption.
  replace (Z.log2 value + 1 - 1) with (Z.log2 value) by ring.
  apply shl_one. apply log2_in_range; assumption.
Qed.

Lemma has_single_bit_pow2 (T : utype) (k : Z) :
  0 <= k < digits T -> has_single_bit T (2 ^ k) = true.
Proof.
  intros Hk. pose proof (pow2_pos k ltac:(lia)) as Hpos.
  apply has_single_bit_log2.
  - apply in_range_lt. split; [lia | apply Z.pow_lt_mono_r; lia].
  - rewrite Z.log2_pow2 by lia. split; [assumption | reflexivity].
Qed.

(** X9: for [value > 0], [bit_floor(value)] has a single bit and no power
    of two above it is at most [value]: it is the largest power of two not
    greater than [value]; and it is [value] itself exactly when [value] has
    a single bit. *)
Theorem bit_floor_largest (tc : toolchain) (T : utype) (value : Z) :
  in_range T value -> 0 < value ->
  has_single_bit T (bit_floor tc T value) = true /\
  (forall k, 0 <= k -> 2 ^ k <= value -> 2 ^ k <= bit_floor tc T value) /\
  (bit_floor tc T value = value <-> has_single_bit T value = true).
Proof.
  intros Hv Hpos.
  rewrite bit_floor_nonzero by (assumption || lia).
  pose proof (log2_in_range T value Hv ltac:(lia)) as Hlog.
  split; [apply has_single_bit_pow2; assumption | ]. split.
  - intros k Hk Hle. apply Z.pow_le_mono_r; [lia | ].
    apply Z.log2_le_pow2; assumption.
  - rewrite has_single_bit_log2 by assumption.
    split; [intros Heq; split; [assumption | congruence] | ].
    intros [_ Heq]. congruence.
Qed.

Lemma bit_ceil_within (tc : toolchain) (T : utype) (value : Z) :
  1 < value <= 2 ^ (digits T - 1) ->
  bit_ceil tc T value = Some (2 ^ (Z.log2 (value - 1) + 1)).
Proof.
  intros Hv. pose proof (digits_bounds T) as HN.
  assert (Hlt : 2 ^ (digits T - 1) < 2 ^ digits T)
    by (apply Z.pow_lt_mono_r; lia).
  assert (Hv1 : in_range T (value - 1)) by (apply in_range_lt; lia).
  assert (Hlog : Z.log2 (value - 1) < digits T - 1)
    by (apply Z.log2_lt_pow2; lia).
  pose proof (Z.log2_nonneg (value - 1)) as Hlog0.
  unfold bit_ceil.
  destruct (Z.ltb_spec value 2) as [? | _]; [lia | ].
  rewrite (cast_small T (value - 1)) by (apply in_range_lt; assumption).
  rewrite bit_width_nonzero by (assumption || lia).
  unfold shl_checked.
  replace ((0 <=? Z.log2 (value - 1) + 1)
           && (Z.log2 (value - 1) + 1
               <? (if promoted T then int_bits else digits T)))%bool
    with true.
  - cbn [option_map]. rewrite shl_one by lia. reflexivity.
  - symmetry. apply andb_true_iff. split.
    + apply Z.leb_le. lia.
    + apply Z.ltb_lt. unfold promoted.
      destruct (Z.ltb_spec (digits T) int_bits); lia.
Qed.

(** X10: for [1 < value <= 2^(N-1)], [bit_ceil(value)] has a single bit and
    no power of two below it is at least [value]: it is the smallest power
    of two not smaller than [value]; and it is [value] itself exactly when
    [value] has a single bit. *)
Theorem bit_ceil_smallest (tc : toolchain) (T : utype) (value : Z) :
  1 < value <= 2 ^ (digits T - 1) ->
  exists c,
    bit_ceil tc T value = Some c /\
    has_single_bit T c = true /\
    (forall k, 0 <= k -> value <= 2 ^ k -> c <= 2 ^ k) /\
    (c = value <-> has_single_bit T value = true).
Proof.
  intros Hv. pose proof (digits_bounds T) as HN.
  assert (Hlt : 2 ^ (digits T - 1) < 2 ^ digits T)
    by (apply Z.pow_lt_mono_r; lia).
  assert (Hlog : Z.log2 (value - 1) < digits T - 1)
    by (apply Z.log2_lt_pow2; lia).
  pose proof (Z.log2_nonneg (value - 1)) as Hlog0.
  assert (Hvr : in_range T value) by (apply in_range_lt; lia).
  rewrite bit_ceil_within by assumption.
  eexists. split; [reflexivity | ].
  split; [apply has_single_bit_pow2; lia | ]. split.
  - intros k Hk Hle. apply Z.pow_le_mono_r; [lia | ].
    assert (Z.log2 (value - 1) < k) by (apply Z.log2_lt_pow2; lia). lia.
  - rewrite has_single_bit_log2 by assumption. split.
    + intros Heq. split; [lia | ].
      rewrite <- Heq at 2. rewrite Z.log2_pow2 by lia. auto.
    + intros [_ Heq].
      assert (Hj : 0 < Z.log2 value) by (apply Z.log2_pos; lia).
      replace (Z.log2 (value - 1)) with (Z.log2 value - 1).
      * replace (Z.log2 value - 1 + 1) with (Z.log2 value) by ring. auto.
      * rewrite Heq at 2. symmetry.
        apply (Z.log2_pred_pow2 (Z.log2 value)). assumption.
Qed.

(** X11: beyond the documented range, for [value > 2^(N-1)], the shift
    amount of [bit_ceil] is the full width [N]: for a type narrower than
    [int] the shift is done in [int] and the conversion to [T] gives [0];
    for the other types the shift has no defined result. *)
Theorem bit_ceil_beyond (tc : toolchain) (T : utype) (value : Z) :
  in_range T value -> 2 ^ (digits T - 1) < value ->
  bit_width tc T (cast T (value - 1)) = digits T /\
  bit_ceil tc T value = if promoted T then Some 0 else None.
Proof.
  intros Hv%in_range_lt Hgt. pose proof (digits_bounds T) as HN.
  pose proof (pow2_pos (digits T - 1) ltac:(lia)) as Hpos.
  assert (Hw : bit_width tc T (cast T (value - 1)) = digits T).
  { rewrite (cast_small T (value - 1)) by lia.
    rewrite bit_width_nonzero by (try apply in_range_lt; lia).
    rewrite (Z.log2_unique (value - 1) (digits T - 1)); [ring | lia | ].
    unfold Z.succ. replace (digits T - 1 + 1) with (digits T) by ring. lia. }
  split; [assumption | ].
  unfold bit_ceil. destruct (Z.ltb_spec value 2) as [? | _]; [lia | ].
  rewrite Hw. destruct T; reflexivity.
Qed.

(** X18: for [1 < value <= 2^(N-1)], [bit_floor(value)] needs as many bits
    as [value], and when [value] does not have a single bit [bit_ceil(value)]
    is twice [bit_floor(value)]. *)
Theorem bit_ceil_twice_bit_floor (tc : toolchain) (T : utype) (value : Z) :
  1 < value <= 2 ^ (digits T - 1) ->
  bit_width tc T (bit_floor tc T value) = bit_width tc T value /\
  (has_single_bit T value = false ->
   bit_ceil tc T value = Some (2 * bit_floor tc T value)).
Proof.
  intros Hv. pose proof (digits_bounds T) as HN.
  assert (Hlt : 2 ^ (digits T - 1) < 2 ^ digits T)
    by (apply Z.pow_lt_mono_r; lia).
  assert (Hvr : in_range T value) by (apply in_range_lt; lia).
  pose proof (log2_in_range T value Hvr ltac:(lia)) as Hlog.
  pose proof (pow2_pos (Z.log2 value) ltac:(lia)) as Hpos.
  pose proof (Z.log2_spec value ltac:(lia)) as Hspec.
  rewrite Z.pow_succ_r in Hspec by lia.
  rewrite bit_floor_nonzero by (assumption || lia).
  split.
  - rewrite !bit_width_nonzero; try assumption; try lia.
    + rewrite Z.log2_pow2 by lia. reflexivity.
    + apply in_range_lt. lia.
  - intros Hsingle. rewrite bit_ceil_within by assumption.
    assert (Hne : value <> 2 ^ Z.log2 value).
    { intros Heq.
      assert (Ht : has_single_bit T value = true)
        by (apply has_single_bit_log2; [assumption | split; [lia | exact Heq]]).
      congruence. }
    rewrite (Z.log2_unique (value - 1) (Z.log2 value)).
    + rewrite Z.pow_add_r by lia. f_equal. ring.
    + lia.
    + rewrite Z.pow_succ_r by lia. lia.
Qed.

(** ** The rotations, bit by bit *)

Lemma testbit_high (N value j : Z) :
  0 <= value < 2 ^ N -> 0 <= N <= j -> Z.testbit value j = false.
Proof.
  intros Hv Hj. rewrite <- (Z.mod_small value (2 ^ N)) by assumption.
  apply Z.mod_pow2_bits_high. assumption.
Qed.

Lemma mod_sub_wrap (N a : Z) : - N <= a < 0 -> a mod N = a + N.
Proof.
  intros Ha. replace a with (a + N + (-1) * N) at 1 by ring.
  rewrite Z.mod_add by lia. apply Z.mod_small. lia.
Qed.

(** The left rotation by [s] takes its bit [i] from bit [(i - s) mod N]. *)
Lemma rol_bits (N value s i : Z) :
  0 < s < N -> 0 <= value < 2 ^ N -> 0 <= i < N ->
  Z.testbit ((Z.lor (Z.shiftl value s) (Z.shiftr value (N - s))) mod 2 ^ N) i
  = Z.testbit value ((i - s) mod N).
Proof.
  intros Hs Hv Hi.
  rewrite Z.mod_pow2_bits_low, Z.lor_spec, Z.shiftl_spec, Z.shiftr_spec by lia.
  destruct (Z.lt_ge_cases i s) as [Hlt | Hge].
  - rewrite mod_sub_wrap by lia.
    rewrite (Z.testbit_neg_r value (i - s)) by lia.
    replace (i + (N - s)) with (i - s + N) by ring. reflexivity.
  - rewrite Z.mod_small by lia.
    rewrite (testbit_high N value (i + (N - s))) by lia.
    apply orb_false_r.
Qed.

(** The right rotation by [s] takes its bit [i] from bit [(i + s) mod N]. *)
Lemma ror_bits (N value s i : Z) :
  0 < s < N -> 0 <= value < 2 ^ N -> 0 <= i < N ->
  Z.testbit ((Z.lor (Z.shiftr value s) (Z.shiftl value (N - s))) mod 2 ^ N) i
  = Z.testbit value ((i + s) mod N).
Proof.
  intros Hs Hv Hi.
  rewrite Z.mod_pow2_bits_low, Z.lor_spec, Z.shiftl_spec, Z.shiftr_spec by lia.
  destruct (Z.lt_ge_cases (i + s) N) as [Hlt | Hge].
  - rewrite Z.mod_small by lia.
    rewrite (Z.testbit_neg_r value (i - (N - s))) by lia.
    apply orb_false_r.
  - replace ((i + s) mod N) with (i + s - N).
    + rewrite (testbit_high N value (i + s)) by lia.
      replace (i - (N - s)) with (i + s - N) by ring. reflexivity.
    + replace (i + s) with (i + s - N + 1 * N) at 2 by ring.
      rewrite Z.mod_add by lia. symmetry. apply Z.mod_small. lia.
Qed.

Lemma rotl_fuel_spec (fuel : nat) (T : utype) (value r : Z) :
  in_range T value ->
  exists x log,
    rotl_fuel (S fuel) T value r = Some (x, log) /\
    in_range T x /\
    forall i, 0 <= i < digits T ->
              Z.testbit x i = Z.testbit value ((i - r) mod digits T).
Proof.
  intros Hv. pose proof (digits_bounds T) as HN.
  pose proof (reduced_range T r) as Hs.
  rewrite rotl_fuel_unfold. cbv zeta.
  destruct (Z.eqb_spec (reduced T r) 0) as [Hz | Hnz].
  - exists value, []. split; [reflexivity | ]. split; [assumption | ].
    intros i Hi. rewrite <- Zminus_mod_idemp_r, <- (reduced_mod T r), Hz.
    rewrite Z.sub_0_r, Z.mod_small by lia. reflexivity.
  - apply in_range_lt in Hv. rewrite cast_lor_shl_l by lia.
    eexists _, _. split; [reflexivity | ].
    split; [apply in_range_lt, Z.mod_pos_bound, pow2_pos; lia | ].
    intros i Hi. rewrite rol_bits by lia.
    rewrite reduced_mod, Zminus_mod_idemp_r. reflexivity.
Qed.

Lemma rotr_fuel_spec (fuel : nat) (T : utype) (value r : Z) :
  in_range T value ->
  exists x log,
    rotr_fuel (S fuel) T value r = Some (x, log) /\
    in_range T x /\
    forall i, 0 <= i < digits T ->
              Z.testbit x i = Z.testbit value ((i + r) mod digits T).
Proof.
  intros Hv. pose proof (digits_bounds T) as HN.
  pose proof (reduced_range T r) as Hs.
  rewrite rotr_fuel_unfold. cbv zeta.
  destruct (Z.eqb_spec (reduced T r) 0) as [Hz | Hnz].
  - exists value, []. split; [reflexivity | ]. split; [assumption | ].
    intros i Hi. rewrite <- Zplus_mod_idemp_r, <- (reduced_mod T r), Hz.
    rewrite Z.add_0_r, Z.mod_small by lia. reflexivity.
  - apply in_range_lt in Hv. rewrite cast_lor_shl_r by lia.
    eexists _, _. split; [reflexivity | ].
    split; [apply in_range_lt, Z.mod_pos_bound, pow2_pos; lia | ].
    intros i Hi. rewrite ror_bits by lia.
    rewrite reduced_mod, Zplus_mod_idemp_r. reflexivity.
Qed.

Lemma in_range_bits_eq (T : utype) (x y : Z) :
  in_range T x -> in_range T y ->
  (forall i, 0 <= i < digits T -> Z.testbit x i = Z.testbit y i) -> x = y.
Proof.
  intros Hx%in_range_lt Hy%in_range_lt Hbits.
  apply (bits_eq_below (digits T)); try assumption.
  pose proof (digits_bounds T). lia.
Qed.

(** X12: [rotl(value, r)] is a value of [T] whose bit [i] is bit
    [(i - r) mod N] of [value], and [rotr(value, r)] one whose bit [i] is
    bit [(i + r) mod N] of [value], for every amount [r], negative or not:
    no bit is lost and none is made up. *)
Theorem rotation_bits (fuel : nat) (T : utype) (value r : Z) :
  in_range T value ->
  (exists x log,
     rotl_fuel (S fuel) T value r = Some (x, log) /\
     in_range T x /\
     forall i, 0 <= i < digits T ->
               Z.testbit x i = Z.testbit value ((i - r) mod digits T)) /\
  (exists x log,
     rotr_fuel (S fuel) T value r = Some (x, log) /\
     in_range T x /\
     forall i, 0 <= i < digits T ->
               Z.testbit x i = Z.testbit value ((i + r) mod digits T)).
Proof.
  intros Hv. split; [apply rotl_fuel_spec | apply rotr_fuel_spec]; assumption.
Qed.

(** X13: a rotation by a negative amount is the opposite rotation by the
    negated amount: [rotl(value, r)] and [rotr(value, -r)] return the same
    value, and so do [rotr(value, r)] and [rotl(value, -r)]. *)
Theorem rotation_opposite (fuel : nat) (T : utype) (value r : Z) :
  in_range T value ->
  (exists x log1 log2,
     rotl_fuel (S fuel) T value r = Some (x, log1) /\
     rotr_fuel (S fuel) T value (- r) = Some (x, log2)) /\
  (exists x log1 log2,
     rotr_fuel (S fuel) T value r = Some (x, log1) /\
     rotl_fuel (S fuel) T value (- r) = Some (x, log2)).
Proof.
  intros Hv. split.
  - destruct (rotl_fuel_spec fuel T value r Hv) as (x & l1 & Hx & Hxr & Hxb).
    destruct (rotr_fuel_spec fuel T value (- r) Hv)
      as (y & l2 & Hy & Hyr & Hyb).
    exists x, l1, l2. split; [assumption | ].
    rewrite Hy. repeat f_equal.
    apply (in_range_bits_eq T); try assumption.
    intros i Hi. rewrite Hxb, Hyb by assumption.
    replace (i + - r) with (i - r) by ring. reflexivity.
  - destruct (rotr_fuel_spec fuel T value r Hv) as (x & l1 & Hx & Hxr & Hxb).
    destruct (rotl_fuel_spec fuel T value (- r) Hv)
      as (y & l2 & Hy & Hyr & Hyb).
    exists x, l1, l2. split; [assumption | ].
    rewrite Hy. repeat f_equal.
    apply (in_range_bits_eq T); try assumption.
    intros i Hi. rewrite Hxb, Hyb by assumption.
    replace (i - - r) with (i + r) by ring. reflexivity.
Qed.

(** X14: rotations compose by adding their amounts:
    [rotl(rotl(value, a), b)] is [rotl(value, a + b)], and likewise for
    [rotr]. *)
Theorem rotation_compose (fuel : nat) (T : utype) (value a b : Z) :
  in_range T value ->
  (exists x log1 y log2 log3,
     rotl_fuel (S fuel) T value a = Some (x, log1) /\
     rotl_fuel (S fuel) T x b = Some (y, log2) /\
     rotl_fuel (S fuel) T value (a + b) = Some (y, log3)) /\
  (exists x log1 y log2 log3,
     rotr_fuel (S fuel) T value a = Some (x, log1) /\
     rotr_fuel (S fuel) T x b = Some (y, log2) /\
     rotr_fuel (S fuel) T value (a + b) = Some (y, log3)).
Proof.
  intros Hv. pose proof (digits_bounds T) as HN. split.
  - destruct (rotl_fuel_spec fuel T value a Hv) as (x & l1 & Hx & Hxr & Hxb).
    destruct (rotl_fuel_spec fuel T x b Hxr) as (y & l2 & Hy & Hyr & Hyb).
    destruct (rotl_fuel_spec fuel T value (a + b) Hv)
      as (z & l3 & Hz & Hzr & Hzb).
    exists x, l1, y, l2, l3. split; [assumption | ]. split; [assumption | ].
    rewrite Hz. repeat f_equal.
    apply (in_range_bits_eq T); try assumption.
    intros i Hi. rewrite Hzb, Hyb by assumption.
    rewrite Hxb by (apply Z.mod_pos_bound; lia).
    rewrite Zminus_mod_idemp_l. f_equal. f_equal. ring.
  - destruct (rotr_fuel_spec fuel T value a Hv) as (x & l1 & Hx & Hxr & Hxb).
    destruct (rotr_fuel_spec fuel T x b Hxr) as (y & l2 & Hy & Hyr & Hyb).
    destruct (rotr_fuel_spec fuel T value (a + b) Hv)
      as (z & l3 & Hz & Hzr & Hzb).
    exists x, l1, y, l2, l3. split; [assumption | ]. split; [assumption | ].
    rewrite Hz. repeat f_equal.
    apply (in_range_bits_eq T); try assumption.
    intros i Hi. rewrite Hzb, Hyb by assumption.
    rewrite Hxb by (apply Z.mod_pos_bound; lia).
    rewrite Zplus_mod_idemp_l. f_equal. f_equal. ring.
Qed.

(** X15: [rotl] undoes [rotr]: [rotl(rotr(value, r), r)] is [value], for
    every amount [r]. *)
Theorem rotl_after_rotr (fuel : nat) (T : utype) (value r : Z) :
  in_range T value ->
  exists x log1 log2,
    rotr_fuel (S fuel) T value r = Some (x, log1) /\
    rotl_fuel (S fuel) T x r = Some (value, log2).
Proof.
  intros Hv. pose proof (digits_bounds T) as HN.
  destruct (rotr_fuel_spec fuel T value r Hv) as (x & l1 & Hx & Hxr & Hxb).
  destruct (rotl_fuel_spec fuel T x r Hxr) as (y & l2 & Hy & Hyr & Hyb).
  exists x, l1, l2. split; [assumption | ].
  rewrite Hy. repeat f_equal.
  apply (in_range_bits_eq T); try assumption.
  intros i Hi. rewrite Hyb by assumption.
  rewrite Hxb by (apply Z.mod_pos_bound; lia).
  rewrite Zplus_mod_idemp_l.
  replace (i - r + r) with i by ring.
  rewrite Z.mod_small by lia. reflexivity.
Qed.

(** X16: the rotations depend on the amount modulo [N] only: adding a
    multiple of [N] to the amount changes neither the result nor the shifts
    that compute it. *)
Theorem rotation_periodic (fuel : nat) (T : utype) (value r k : Z) :
  rotl_fuel (S fuel) T value (r + k * digits T)
  = rotl_fuel (S fuel) T value r /\
  rotr_fuel (S fuel) T value (r + k * digits T)
  = rotr_fuel (S fuel) T value r.
Proof.
  pose proof (digits_bounds T) as HN.
  assert (Hred : reduced T (r + k * digits T) = reduced T r)
    by (rewrite !reduced_mod; apply Z.mod_add; lia).
  rewrite !rotl_fuel_unfold, !rotr_fuel_unfold. cbv zeta.
  rewrite Hred. split; reflexivity.
Qed.

(** ** bit_cast *)

Lemma store_app (done rest : list Byte.byte) (old b : Byte.byte) :
  store (done ++ old :: rest) (length done) b = Some (done ++ b :: rest).
Proof.
  induction done as [| d done IH]; simpl.
  - reflexivity.
  - rewrite IH. reflexivity.
Qed.

(** After [length done] iterations the first bytes of the result are those
    of the source; the remaining iterations copy the rest. *)
Lemma bit_cast_loop_copies (todo : list Byte.byte) :
  forall done dst_rest : list Byte.byte,
    length dst_rest = length todo ->
    bit_cast_loop (length todo) (length done) (done ++ dst_rest)
      (done ++ todo)
    = Some (done ++ todo).
Proof.
  induction todo as [| b todo IH]; intros done dst_rest Hr.
  - destruct dst_rest; [reflexivity | discriminate].
  - destruct dst_rest as [| old dst_rest]; [discriminate | ].
    cbn [length bit_cast_loop].
    rewrite nth_error_app2, Nat.sub_diag by lia. cbn [nth_error].
    rewrite store_app.
    replace (S (length done)) with (length (done ++ [b]))
      by (rewrite length_app; simpl; lia).
    replace (done ++ b :: dst_rest) with ((done ++ [b]) ++ dst_rest)
      by (rewrite <- app_assoc; reflexivity).
    replace (done ++ b :: todo) with ((done ++ [b]) ++ todo)
      by (rewrite <- app_assoc; reflexivity).
    apply IH. simpl in Hr. lia.
Qed.

(** X17: when the two objects have the same size, the byte-by-byte
    [bit_cast] returns exactly the bytes of its argument, whatever the bytes
    of the not yet initialized result were; it reads and writes inside the
    two objects only. *)
Theorem bit_cast_copies (to from : list Byte.byte) :
  length to = length from -> bit_cast to from = Some from.
Proof.
  intros Hlen. unfold bit_cast. rewrite Hlen.
  apply (bit_cast_loop_copies from [] to). assumption.
Qed.

(** * The further properties at concrete inputs *)

Lemma has_single_bit_correct_witness :
  in_range UChar 64 /\
  (has_single_bit UChar 64 = true <->
   exists k, 0 <= k < digits UChar /\ 64 = 2 ^ k).
Proof.
  assert (H : in_range UChar 64) by (unfold in_range, max, digits; lia).
  split; [exact H | apply (has_single_bit_correct UChar 64 H)].
Defined.

Lemma countl_one_correct_witness :
  in_range UChar 0xE5 /\
  (countl_one no_builtins UChar 0xE5 = digits UChar <-> 0xE5 = max UChar) /\
  (0xE5 <> max UChar ->
   0 <= countl_one no_builtins UChar 0xE5 < digits UChar /\
   Z.testbit 0xE5 (digits UChar - 1 - countl_one no_builtins UChar 0xE5)
   = false /\
   forall i,
     digits UChar - 1 - countl_one no_builtins UChar 0xE5 < i < digits UChar ->
     Z.testbit 0xE5 i = true).
Proof.
  assert (H : in_range UChar 0xE5) by (unfold in_range, max, digits; lia).
  split; [exact H | apply (countl_one_correct no_builtins UChar 0xE5 H)].
Defined.

Lemma countr_one_correct_witness :
  in_range UInt 0x00FF00FF /\
  (countr_one all_builtins UInt 0x00FF00FF = digits UInt <->
   0x00FF00FF = max UInt) /\
  (0x00FF00FF <> max UInt ->
   0 <= countr_one all_builtins UInt 0x00FF00FF < digits UInt /\
   Z.testbit 0x00FF00FF (countr_one all_builtins UInt 0x00FF00FF) = false /\
   forall i, 0 <= i < countr_one all_builtins UInt 0x00FF00FF ->
             Z.testbit 0x00FF00FF i = true).
Proof.
  assert (H : in_range UInt 0x00FF00FF) by (unfold in_range, max, digits; lia).
  split; [exact H | apply (countr_one_correct all_builtins UInt 0x00FF00FF H)].
Defined.

Lemma countr_zero_divides_witness :
  in_range UShort 48 /\ 48 <> 0 /\ 0 <= 3 /\
  ((2 ^ 3 | 48) <-> 3 <= countr_zero all_builtins UShort 48).
Proof.
  assert (H1 : in_range UShort 48) by (unfold in_range, max, digits; lia).
  assert (H2 : 48 <> 0) by lia.
  assert (H3 : 0 <= 3) by lia.
  split; [exact H1 | ]. split; [exact H2 | ]. split; [exact H3 | ].
  apply (countr_zero_divides all_builtins UShort 48 3 H1 H2 H3).
Defined.

Lemma bit_width_correct_witness :
  in_range UInt 5 /\
  bit_width all_builtins UInt 0 = 0 /\
  (5 <> 0 ->
   1 <= bit_width all_builtins UInt 5 <= digits UInt /\
   2 ^ (bit_width all_builtins UInt 5 - 1) <= 5
   < 2 ^ bit_width all_builtins UInt 5).
Proof.
  assert (H : in_range UInt 5) by (unfold in_range, max, digits; lia).
  split; [exact H | apply (bit_width_correct all_builtins UInt 5 H)].
Defined.

Lemma bit_width_monotone_witness :
  in_range UChar 5 /\ in_range UChar 200 /\ 5 <= 200 /\
  bit_width no_builtins UChar 5 <= bit_width no_builtins UChar 200 /\
  countl_zero no_builtins UChar 200 <= countl_zero no_builtins UChar 5.
Proof.
  assert (H1 : in_range UChar 5) by (unfold in_range, max, digits; lia).
  assert (H2 : in_range UChar 200) by (unfold in_range, max, digits; lia).
  assert (H3 : 5 <= 200) by lia.
  split; [exact H1 | ]. split; [exact H2 | ]. split; [exact H3 | ].
  apply (bit_width_monotone no_builtins UChar 5 200 H1 H2 H3).
Defined.

Lemma has_single_bit_counts_witness :
  in_range UChar 16 /\ 16 <> 0 /\
  (has_single_bit UChar 16 = true <->
   countl_zero no_builtins UChar 16 + countr_zero no_builtins UChar 16
   = digits UChar - 1).
Proof.
  assert (H1 : in_range UChar 16) by (unfold in_range, max, digits; lia).
  assert (H2 : 16 <> 0) by lia.
  split; [exact H1 | ]. split; [exact H2 | ].
  apply (has_single_bit_counts no_builtins UChar 16 H1 H2).
Defined.

Lemma first_leading_one_correct_witness :
  in_range UChar 0x17 /\
  (first_leading_one no_builtins UChar 0x17 = 0 <-> 0x17 = 0) /\
  (0x17 <> 0 ->
   first_leading_one no_builtins UChar 0x17
   = countl_zero no_builtins UChar 0x17 + 1 /\
   1 <= first_leading_one no_builtins UChar 0x17 <= digits UChar /\
   Z.testbit 0x17 (digits UChar - first_leading_one no_builtins UChar 0x17)
   = true /\
   forall i, digits UChar - first_leading_one no_builtins UChar 0x17 < i ->
             Z.testbit 0x17 i = false).
Proof.
  assert (H : in_range UChar 0x17) by (unfold in_range, max, digits; lia).
  split; [exact H | apply (first_leading_one_correct no_builtins UChar 0x17 H)].
Defined.

Lemma bit_floor_largest_witness :
  in_range UInt 5 /\ 0 < 5 /\
  has_single_bit UInt (bit_floor all_builtins UInt 5) = true /\
  (forall k, 0 <= k -> 2 ^ k <= 5 -> 2 ^ k <= bit_floor all_builtins UInt 5) /\
  (bit_floor all_builtins UInt 5 = 5 <-> has_single_bit UInt 5 = true).
Proof.
  assert (H1 : in_range UInt 5) by (unfold in_range, max, digits; lia).
  assert (H2 : 0 < 5) by lia.
  split; [exact H1 | ]. split; [exact H2 | ].
  apply (bit_floor_largest all_builtins UInt 5 H1 H2).
Defined.

Lemma bit_ceil_smallest_witness :
  1 < 5 <= 2 ^ (digits UInt - 1) /\
  exists c,
    bit_ceil all_builtins UInt 5 = Some c /\
    has_single_bit UInt c = true /\
    (forall k, 0 <= k -> 5 <= 2 ^ k -> c <= 2 ^ k) /\
    (c = 5 <-> has_single_bit UInt 5 = true).
Proof.
  assert (H : 1 < 5 <= 2 ^ (digits UInt - 1)) by (unfold digits; lia).
  split; [exact H | apply (bit_ceil_smallest all_builtins UInt 5 H)].
Defined.

Lemma bit_ceil_beyond_witness :
  in_range UChar 200 /\ 2 ^ (digits UChar - 1) < 200 /\
  bit_width no_builtins UChar (cast UChar (200 - 1)) = digits UChar /\
  bit_ceil no_builtins UChar 200 = if promoted UChar then Some 0 else None.
Proof.
  assert (H1 : in_range UChar 200) by (unfold in_range, max, digits; lia).
  assert (H2 : 2 ^ (digits UChar - 1) < 200) by (unfold digits; lia).
  split; [exact H1 | ]. split; [exact H2 | ].
  apply (bit_ceil_beyond no_builtins UChar 200 H1 H2).
Defined.

Lemma rotation_bits_witness :
  in_range UChar 129 /\
  (exists x log,
     rotl_fuel 1 UChar 129 (-3) = Some (x, log) /\
     in_range UChar x /\
     forall i, 0 <= i < digits UChar ->
               Z.testbit x i = Z.testbit 129 ((i - -3) mod digits UChar)) /\
  (exists x log,
     rotr_fuel 1 UChar 129 (-3) = Some (x, log) /\
     in_range UChar x /\
     forall i, 0 <= i < digits UChar ->
               Z.testbit x i = Z.testbit 129 ((i + -3) mod digits UChar)).
Proof.
  assert (H : in_range UChar 129) by (unfold in_range, max, digits; lia).
  split; [exact H | apply (rotation_bits 0 UChar 129 (-3) H)].
Defined.

Lemma rotation_opposite_witness :
  in_range UChar 129 /\
  (exists x log1 log2,
     rotl_fuel 1 UChar 129 3 = Some (x, log1) /\
     rotr_fuel 1 UChar 129 (- 3) = Some (x, log2)) /\
  (exists x log1 log2,
     rotr_fuel 1 UChar 129 3 = Some (x, log1) /\
     rotl_fuel 1 UChar 129 (- 3) = Some (x, log2)).
Proof.
  assert (H : in_range UChar 129) by (unfold in_range, max, digits; lia).
  split; [exact H | apply (rotation_opposite 0 UChar 129 3 H)].
Defined.

Lemma rotation_compose_witness :
  in_range UChar 129 /\
  (exists x log1 y log2 log3,
     rotl_fuel 1 UChar 129 5 = Some (x, log1) /\
     rotl_fuel 1 UChar x 6 = Some (y, log2) /\
     rotl_fuel 1 UChar 129 (5 + 6) = Some (y, log3)) /\
  (exists x log1 y log2 log3,
     rotr_fuel 1 UChar 129 5 = Some (x, log1) /\
     rotr_fuel 1 UChar x 6 = Some (y, log2) /\
     rotr_fuel 1 UChar 129 (5 + 6) = Some (y, log3)).
Proof.
  assert (H : in_range UChar 129) by (unfold in_range, max, digits; lia).
  split; [exact H | apply (rotation_compose 0 UChar 129 5 6 H)].
Defined.

Lemma rotl_after_rotr_witness :
  in_range UChar 129 /\
  exists x log1 log2,
    rotr_fuel 1 UChar 129 (-3) = Some (x, log1) /\
    rotl_fuel 1 UChar x (-3) = Some (129, log2).
Proof.
  assert (H : in_range UChar 129) by (unfold in_range, max, digits; lia).
  split; [exact H | apply (rotl_after_rotr 0 UChar 129 (-3) H)].
Defined.

Lemma bit_cast_copies_witness :
  length [Byte.x00; Byte.x00] = length [Byte.x2a; Byte.x01] /\
  bit_cast [Byte.x00; Byte.x00] [Byte.x2a; Byte.x01]
  = Some [Byte.x2a; Byte.x01].
Proof.
  assert (H : length [Byte.x00; Byte.x00] = length [Byte.x2a; Byte.x01])
    by reflexivity.
  split; [exact H | apply (bit_cast_copies _ _ H)].
Defined.

Lemma bit_ceil_twice_bit_floor_witness :
  1 < 5 <= 2 ^ (digits UInt - 1) /\
  bit_width all_builtins UInt (bit_floor all_builtins UInt 5)
  = bit_width all_builtins UInt 5 /\
  (has_single_bit UInt 5 = false ->
   bit_ceil all_builtins UInt 5 = Some (2 * bit_floor all_builtins UInt 5)).
Proof.
  assert (H : 1 < 5 <= 2 ^ (digits UInt - 1)) by (unfold digits; lia).
  split; [exact H | apply (bit_ceil_twice_bit_floor all_builtins UInt 5 H)].
Defined.
